(** * whatsapp-bridge: validation layer and message store

  A shallow embedding of
    - pkg/validation/input.go (ValidateJID, ValidatePhoneNumber,
      ValidateRecipient, ValidateFilePath, ValidateMessageContent,
      ValidateMediaType),
    - pkg/database/models.go (Chat, Message, IsGroup, IsContact),
    - the Store of package database (NewStore, initTables, StoreChat,
      StoreMessage, GetMessages, GetChats),
    - package api (validateSendMessageRequest, validateSendFileRequest,
      parseQueryParams),
    - pkg/config/config.go (LoadConfig, getEnv, getEnvAsInt),
  with the library functions they call (regexp.MatchString on the three
  patterns, strings.Contains and strings.ToLower, strconv.Atoi,
  filepath.Clean, filepath.Abs and filepath.Ext on Unix, and the SQL
  statements as the engine executes them), followed by the properties of
  these functions.

  Go strings are byte sequences: they are embedded as [string], whose
  characters are the bytes.  A Go [error] is [option string]: [None] is
  [nil], [Some msg] is an error with message [msg]. *)

From Stdlib Require Import List String Ascii ZArith Lia Bool Arith.
From Stdlib Require Import Permutation Sorted.
From Stdlib Require Import DecimalString.
Import ListNotations.
Open Scope string_scope.

(** ** Go values *)

Definition error := option string.
Definition nil : error := None.
Definition Errorf (msg : string) : error := Some msg.

(** A pair (value, err) returned by a Go function. *)
Inductive result (A : Type) : Type :=
| Ok (a : A)
| Failed (msg : string).
Arguments Ok {A} a.
Arguments Failed {A} msg.

Module GoString.

(** [s[n:]], for [n <= len(s)] (beyond that Go panics; every use below is
    guarded by a length test). *)
Fixpoint slice_from (n : nat) (s : string) : string :=
  match n, s with
  | O, _ => s
  | S n', String _ s' => slice_from n' s'
  | S _, EmptyString => EmptyString
  end.

(** strings.HasPrefix *)
Fixpoint HasPrefix (s prefix : string) : bool :=
  match prefix, s with
  | EmptyString, _ => true
  | String _ _, EmptyString => false
  | String a p', String b s' => Ascii.eqb a b && HasPrefix s' p'
  end.

(** strings.Contains *)
Fixpoint Contains (s substr : string) : bool :=
  HasPrefix s substr
  || match s with
     | EmptyString => false
     | String _ s' => Contains s' substr
     end.

End GoString.

(** ** Regular expressions (package regexp)

  The three patterns of the validation package are built from literal
  bytes, the class \d, concatenation, + and {min,max}.  \d is ASCII-only in
  Go, and every pattern is written ^...$ : without the multi-line flag the
  anchors stand for the beginning and the end of the text, so
  [MatchString] holds exactly when the whole text belongs to the language
  of the body.  Matching is by Brzozowski derivatives. *)

Module Regexp.

Inductive regex : Type :=
| Fail                       (* matches nothing *)
| Eps                        (* the empty string *)
| Lit (c : ascii)            (* one literal byte *)
| Digit                      (* \d *)
| Alt (r1 r2 : regex)
| Seq (r1 r2 : regex)
| Star (r : regex).

Definition is_digit (c : ascii) : bool :=
  Nat.leb 48 (nat_of_ascii c) && Nat.leb (nat_of_ascii c) 57.

(** a literal string *)
Fixpoint Str (s : string) : regex :=
  match s with
  | EmptyString => Eps
  | String c s' => Seq (Lit c) (Str s')
  end.

(** r+ *)
Definition Plus (r : regex) : regex := Seq r (Star r).

(** r{n} *)
Fixpoint Exactly (n : nat) (r : regex) : regex :=
  match n with
  | O => Eps
  | S n' => Seq r (Exactly n' r)
  end.

(** r{0,n}, as (r(r(...)?)?)? *)
Fixpoint AtMost (n : nat) (r : regex) : regex :=
  match n with
  | O => Eps
  | S n' => Alt Eps (Seq r (AtMost n' r))
  end.

(** r{min,max} *)
Definition Repeat (min max : nat) (r : regex) : regex :=
  Seq (Exactly min r) (AtMost (max - min) r).

Fixpoint nullable (r : regex) : bool :=
  match r with
  | Fail => false
  | Eps => true
  | Lit _ => false
  | Digit => false
  | Alt r1 r2 => nullable r1 || nullable r2
  | Seq r1 r2 => nullable r1 && nullable r2
  | Star _ => true
  end.

Fixpoint deriv (c : ascii) (r : regex) : regex :=
  match r with
  | Fail => Fail
  | Eps => Fail
  | Lit d => if Ascii.eqb c d then Eps else Fail
  | Digit => if is_digit c then Eps else Fail
  | Alt r1 r2 => Alt (deriv c r1) (deriv c r2)
  | Seq r1 r2 =>
      if nullable r1
      then Alt (Seq (deriv c r1) r2) (deriv c r2)
      else Seq (deriv c r1) r2
  | Star r1 => Seq (deriv c r1) (Star r1)
  end.

Fixpoint MatchString (body : regex) (s : string) : bool :=
  match s with
  | EmptyString => nullable body
  | String c s' => MatchString (deriv c body) s'
  end.

(** The language of a pattern body, against which the matcher is proved
    correct below. *)
Inductive lang : regex -> string -> Prop :=
| L_Eps : lang Eps EmptyString
| L_Lit c : lang (Lit c) (String c EmptyString)
| L_Digit c : is_digit c = true -> lang Digit (String c EmptyString)
| L_AltL r1 r2 s : lang r1 s -> lang (Alt r1 r2) s
| L_AltR r1 r2 s : lang r2 s -> lang (Alt r1 r2) s
| L_Seq r1 r2 s1 s2 : lang r1 s1 -> lang r2 s2 -> lang (Seq r1 r2) (s1 ++ s2)
| L_Star0 r : lang (Star r) EmptyString
| L_StarS r s1 s2 :
    lang r s1 -> lang (Star r) s2 -> lang (Star r) (s1 ++ s2).

(** Every byte is an ASCII digit. *)
Fixpoint all_digits (s : string) : bool :=
  match s with
  | EmptyString => true
  | String c s' => is_digit c && all_digits s'
  end.

End Regexp.

(** ** Package path/filepath (Unix) *)

Module Filepath.
Import GoString.

Definition Separator : ascii := "/"%char.
Definition IsPathSeparator (c : ascii) : bool := Ascii.eqb c Separator.

(** The path elements the loop of [Clean] visits: the maximal runs of
    bytes between separators (empty between two adjacent separators). *)
Fixpoint elements (path : string) : list string :=
  match path with
  | EmptyString => [EmptyString]
  | String c rest =>
      if IsPathSeparator c then EmptyString :: elements rest
      else match elements rest with
           | e :: es => String c e :: es
           | [] => [String c EmptyString]
           end
  end.

(** The output buffer of [Clean]: the bytes written so far, last written
    first ([out.w] is its length), and the index [dotdot] below which a
    ".." element may not backtrack. *)
Record lazybuf : Type := { out : list ascii; dotdot : nat }.

(** [out.w--; for out.w > dotdot && !IsPathSeparator(out.index(out.w)) { out.w-- }] *)
Fixpoint backtrack (dd : nat) (o : list ascii) : list ascii :=
  match o with
  | [] => []
  | c :: o' =>
      if Nat.ltb dd (List.length o') && negb (IsPathSeparator c)
      then backtrack dd o'
      else o'
  end.

Definition push_string (e : string) (o : list ascii) : list ascii :=
  List.rev_append (list_ascii_of_string e) o.

Definition clean_step (rooted : bool) (b : lazybuf) (e : string) : lazybuf :=
  let w := List.length (out b) in
  if (e =? "") || (e =? ".") then b
  else if e =? ".." then
    if Nat.ltb (dotdot b) w then
      {| out := backtrack (dotdot b) (out b); dotdot := dotdot b |}
    else if negb rooted then
      let o1 := if Nat.ltb 0 w then Separator :: out b else out b in
      let o2 := "."%char :: "."%char :: o1 in
      {| out := o2; dotdot := List.length o2 |}
    else b
  else
    let o1 :=
      if (rooted && negb (Nat.eqb w 1)) || (negb rooted && negb (Nat.eqb w 0))
      then Separator :: out b else out b in
    {| out := push_string e o1; dotdot := dotdot b |}.

(** filepath.Clean *)
Definition Clean (path : string) : string :=
  match path with
  | EmptyString => "."
  | String c rest =>
      let rooted := IsPathSeparator c in
      let init :=
        if rooted then {| out := [Separator]; dotdot := 1 |}
        else {| out := []; dotdot := 0 |} in
      let b := fold_left (clean_step rooted)
                         (elements (if rooted then rest else path)) init in
      match out b with
      | [] => "."
      | o => string_of_list_ascii (List.rev o)
      end
  end.

(** filepath.IsAbs *)
Definition IsAbs (path : string) : bool := HasPrefix path "/".

(** filepath.Join, for two elements *)
Definition Join (a b : string) : string :=
  if negb (a =? "") then Clean (a ++ "/" ++ b)
  else if negb (b =? "") then Clean b
  else "".

(** filepath.Abs; [getwd] is what os.Getwd returns in the calling process. *)
Definition Abs (getwd : result string) (path : string) : result string :=
  if IsAbs path then Ok (Clean path)
  else match getwd with
       | Ok wd => Ok (Join wd path)
       | Failed e => Failed e
       end.

End Filepath.

(** ** Package validation (input.go) *)

Module Validation.
Import GoString Regexp.

(** [^\d{10,15}@s\.whatsapp\.net$] *)
Definition phoneJIDPattern : regex :=
  Seq (Repeat 10 15 Digit) (Str "@s.whatsapp.net").

(** [^\d+-\d+@g\.us$] *)
Definition groupJIDPattern : regex :=
  Seq (Plus Digit) (Seq (Lit "-") (Seq (Plus Digit) (Str "@g.us"))).

(** [^\d{10,15}$] *)
Definition phonePattern : regex := Repeat 10 15 Digit.

Definition ValidateJID (jid : string) : error :=
  if jid =? "" then Errorf "JID cannot be empty"
  else if MatchString phoneJIDPattern jid || MatchString groupJIDPattern jid
  then nil
  else Errorf ("invalid JID format: " ++ jid).

Definition ValidatePhoneNumber (phone : string) : error :=
  if phone =? "" then Errorf "phone number cannot be empty"
  else if negb (MatchString phonePattern phone)
  then Errorf ("invalid phone number format: " ++ phone
               ++ " (should be 10-15 digits)")
  else nil.

Definition ValidateRecipient (recipient : string) : error :=
  if recipient =? "" then Errorf "recipient cannot be empty"
  else match ValidatePhoneNumber recipient with
       | None => nil
       | Some _ =>
           match ValidateJID recipient with
           | None => nil
           | Some _ => Errorf ("invalid recipient format: " ++ recipient)
           end
       end.

(** The null byte, "\x00". *)
Definition NUL : string := String Ascii.zero EmptyString.

(** [getwd] is the result of os.Getwd, which filepath.Abs calls for a
    relative path; nothing else of the environment is read. *)
Definition ValidateFilePath (getwd : result string) (path : string) : error :=
  if path =? "" then Errorf "file path cannot be empty"
  else
    let cleanPath := Filepath.Clean path in
    if Contains cleanPath ".."
    then Errorf ("path traversal detected in: " ++ path)
    else match Filepath.Abs getwd cleanPath with
         | Failed _ => Errorf ("invalid file path: " ++ path)
         | Ok absPath =>
             if Contains absPath NUL
             then Errorf ("invalid file path contains null byte: " ++ path)
             else nil
         end.

End Validation.

(** ** Package database (models.go, database.go) *)

Module Database.
Import GoString.

(** A time.Time, kept as the text go-sqlite3 binds for it, which is
    t.Format("2006-01-02 15:04:05.999999999-07:00"): the column holds this
    text, and ORDER BY compares it byte by byte, the wall clock first and
    the zone offset last.  The order of the texts is the order of the
    instants only among timestamps of one zone offset. *)
Definition Time := string.

(** uint64: a natural number below 2^64. *)
Record uint64 : Type := {
  u64_value : N;
  u64_range : (u64_value <? 2 ^ 64)%N = true
}.

(** database/sql hands a uint64 to the driver as an int64 and refuses the
    values that do not fit: those from 2^63 on. *)
Definition high_bit_set (u : uint64) : bool := (2 ^ 63 <=? u64_value u)%N.

Record Message : Type := {
  ID            : string;
  ChatJID       : string;
  Sender        : string;
  Content       : string;
  Timestamp     : Time;
  IsFromMe      : bool;
  MediaType     : string;
  Filename      : string;
  URL           : string;
  MediaKey      : list Byte.byte;
  FileSHA256    : list Byte.byte;
  FileEncSHA256 : list Byte.byte;
  FileLength    : uint64
}.

Record Chat : Type := {
  JID             : string;
  Name            : string;
  LastMessageTime : Time
}.

(** [len(c.JID) > 6 && c.JID[len(c.JID)-6:] == "@g.us"] *)
Definition IsGroup (c : Chat) : bool :=
  Nat.ltb 6 (String.length (JID c))
  && (slice_from (String.length (JID c) - 6) (JID c) =? "@g.us").

(** [len(c.JID) > 13 && c.JID[len(c.JID)-13:] == "@s.whatsapp.net"] *)
Definition IsContact (c : Chat) : bool :=
  Nat.ltb 13 (String.length (JID c))
  && (slice_from (String.length (JID c) - 13) (JID c) =? "@s.whatsapp.net").

(** The state behind the [db] handle of a Store: the rows of the two
    tables of initTables, each in the order of its rowids (the order in
    which the rows were last written), and the number of rows written so
    far through [db.Exec]. *)
Record Store : Type := {
  chats    : list Chat;
  messages : list Message;
  writes   : nat
}.

(** NewStore on a fresh database file: initTables creates both tables
    empty.  The connection is opened with _foreign_keys=on, so the FOREIGN
    KEY clause of [messages] is enforced on every write. *)
Definition NewStore : Store :=
  {| chats := []; messages := []; writes := 0 |}.

(** PRIMARY KEY (id, chat_jid) *)
Definition msg_key (m : Message) : string * string := (ID m, ChatJID m).

Definition same_msg_key (m1 m2 : Message) : bool :=
  (ID m1 =? ID m2) && (ChatJID m1 =? ChatJID m2).

Definition same_jid (c1 c2 : Chat) : bool := JID c1 =? JID c2.

(** INSERT OR REPLACE: the rows that collide with the new row on the
    primary key are deleted, then the new row is written. *)
Definition insert_or_replace {A : Type} (same : A -> A -> bool)
           (row : A) (table : list A) : list A :=
  filter (fun r => negb (same r row)) table ++ [row].

(** FOREIGN KEY (chat_jid) REFERENCES chats(jid) *)
Definition chat_exists (s : Store) (jid : string) : bool :=
  existsb (fun c => JID c =? jid) (chats s).

Definition StoreChat (s : Store) (chat : Chat) : error * Store :=
  (nil, {| chats := insert_or_replace same_jid chat (chats s);
           messages := messages s;
           writes := S (writes s) |}).

(** The error of db.Exec when the thirteenth argument, msg.FileLength,
    cannot be converted: the statement is not run. *)
Definition conversion_error : string :=
  "sql: converting argument $13 type: uint64 values with high bit set are not supported".

Definition StoreMessage (s : Store) (msg : Message) : error * Store :=
  if (Content msg =? "") && (MediaType msg =? "") then (nil, s)
  else if high_bit_set (FileLength msg) then (Errorf conversion_error, s)
  else if chat_exists s (ChatJID msg) then
    (nil, {| chats := chats s;
             messages := insert_or_replace same_msg_key msg (messages s);
             writes := S (writes s) |})
  else (Errorf "FOREIGN KEY constraint failed", s).

(** ORDER BY key DESC on a column of timestamp texts, compared byte by
    byte.  The statement names no second sort key: rows with equal keys
    stay in the order in which the scan delivers them. *)
Fixpoint insert_desc {A : Type} (key : A -> Time) (x : A) (l : list A)
  : list A :=
  match l with
  | [] => [x]
  | y :: l' =>
      if (key y <=? key x)%string then x :: l else y :: insert_desc key x l'
  end.

Fixpoint order_by_desc {A : Type} (key : A -> Time) (l : list A) : list A :=
  match l with
  | [] => []
  | x :: l' => insert_desc key x (order_by_desc key l')
  end.

(** LIMIT limit OFFSET offset: a negative offset counts as 0, a negative
    limit as no limit. *)
Definition limit_offset {A : Type} (limit offset : Z) (l : list A) : list A :=
  let rest := skipn (Z.to_nat offset) l in
  if (limit <? 0)%Z then rest else firstn (Z.to_nat limit) rest.

Definition GetMessages (s : Store) (chatJID : string) (limit offset : Z)
  : list Message * error :=
  (limit_offset limit offset
     (order_by_desc Timestamp
        (filter (fun m => ChatJID m =? chatJID) (messages s))),
   nil).

(** The engine answers the query of GetChats from the index on
    last_message_time, read backwards: the scan delivers the rows of one
    timestamp latest written first.  (The query of GetMessages is answered
    from the index on chat_jid and sorted: there the scan delivers the rows
    in the order of the table.) *)
Definition GetChats (s : Store) (limit offset : Z) : list Chat * error :=
  (limit_offset limit offset
     (order_by_desc LastMessageTime (List.rev (chats s))),
   nil).

(** Sequences of writes. *)
Inductive op : Type :=
| OpStoreChat (chat : Chat)
| OpStoreMessage (msg : Message).

Definition apply_op (s : Store) (o : op) : Store :=
  match o with
  | OpStoreChat chat => snd (StoreChat s chat)
  | OpStoreMessage msg => snd (StoreMessage s msg)
  end.

Definition run (ops : list op) (s : Store) : Store :=
  fold_left apply_op ops s.

Definition two_digits (n : Z) : string :=
  String (ascii_of_nat (48 + Z.to_nat (n / 10 mod 10)))
    (String (ascii_of_nat (48 + Z.to_nat (n mod 10))) EmptyString).

(** The text stored for the instant [sec] seconds (0 to 3599) after
    2024-05-01 10:00:00 UTC. *)
Definition clock (sec : Z) : Time :=
  "2024-05-01 10:" ++ two_digits (sec / 60) ++ ":" ++ two_digits (sec mod 60)
  ++ "+00:00".

Definition u64_zero : uint64 := {| u64_value := 0; u64_range := eq_refl |}.

(** A chat last heard of at second [sec]. *)
Definition mkChat (jid name : string) (sec : Z) : Chat :=
  {| JID := jid; Name := name; LastMessageTime := clock sec |}.

(** A text message of second [sec]: no media descriptor. *)
Definition mkText (id chat sender content : string) (sec : Z) : Message :=
  {| ID := id; ChatJID := chat; Sender := sender; Content := content;
     Timestamp := clock sec; IsFromMe := false; MediaType := "";
     Filename := ""; URL := ""; MediaKey := []; FileSHA256 := [];
     FileEncSHA256 := []; FileLength := u64_zero |}.

End Database.

(** ** Vocabulary of the properties *)

Module Shapes.
Import Regexp.

(** A bare routable number: digits only, 10 to 15 of them. *)
Definition bare_number (s : string) : Prop :=
  all_digits s = true /\ 10 <= String.length s <= 15.

(** <digits>@<user-domain> *)
Definition user_form (s : string) : Prop :=
  exists d, s = d ++ "@s.whatsapp.net" /\ all_digits d = true /\ d <> "".

(** <digits>-<digits>@<group-domain> *)
Definition group_form (s : string) : Prop :=
  exists a b, s = a ++ "-" ++ b ++ "@g.us"
              /\ (all_digits a = true /\ a <> "")
              /\ (all_digits b = true /\ b <> "").

(** A path has a parent-directory segment: one of its elements is "..". *)
Definition has_dotdot_segment (path : string) : Prop :=
  In ".." (Filepath.elements path).

End Shapes.

Module StoreSpec.
Import Database.

(** jid is the primary key of [chats], (id, chat_jid) that of [messages]. *)
Definition key_invariant (s : Store) : Prop :=
  NoDup (map JID (chats s)) /\ NoDup (map msg_key (messages s)).

(** Every message row references a chat row. *)
Definition fk_invariant (s : Store) : Prop :=
  forall m, In m (messages s) -> In (ChatJID m) (map JID (chats s)).

Definition store_ok (s : Store) : Prop := key_invariant s /\ fk_invariant s.

Definition rows_with_jid (s : Store) (jid : string) : list Chat :=
  filter (fun c => JID c =? jid) (chats s).

Definition rows_with_key (s : Store) (m : Message) : list Message :=
  filter (fun r => same_msg_key r m) (messages s).

(** Non-increasing order of the stored timestamp. *)
Definition desc {A : Type} (key : A -> Time) (a b : A) : Prop :=
  (key b <=? key a)%string = true.

(** The file length of the message fits an int64. *)
Definition fits_int64 (m : Message) : Prop :=
  (u64_value (FileLength m) < 2 ^ 63)%N.

End StoreSpec.

(** ** Concrete stores and inputs used in the examples *)

Module Examples.
Import Database.

Definition chat1 : Chat := mkChat "1@s.whatsapp.net" "A" 0%Z.

Definition hi : Message := mkText "m1" "1@s.whatsapp.net" "" "hi" 0%Z.

(** One chat holding one message. *)
Definition store1 : Store :=
  run [OpStoreChat chat1; OpStoreMessage hi] NewStore.

(** One chat holding three messages of distinct timestamps. *)
Definition store3 : Store :=
  run [OpStoreChat chat1;
       OpStoreMessage (mkText "m1" "1@s.whatsapp.net" "" "a" 3%Z);
       OpStoreMessage (mkText "m2" "1@s.whatsapp.net" "" "b" 5%Z);
       OpStoreMessage (mkText "m3" "1@s.whatsapp.net" "" "c" 4%Z)]
      NewStore.

(** One chat holding two messages of one timestamp, "a" written before
    "b", and an older message. *)
Definition tie_store : Store :=
  run [OpStoreChat chat1;
       OpStoreMessage (mkText "old" "1@s.whatsapp.net" "" "o" 1%Z);
       OpStoreMessage (mkText "a" "1@s.whatsapp.net" "" "first" 5%Z);
       OpStoreMessage (mkText "b" "1@s.whatsapp.net" "" "second" 5%Z)]
      NewStore.

(** Two chats, the first holding three messages. *)
Definition two_chats : Store :=
  snd (StoreChat store3 (mkChat "2@s.whatsapp.net" "B" 2%Z)).

(** 2^63, the least file length with the high bit set. *)
Definition u64_high : uint64 :=
  {| u64_value := 2 ^ 63; u64_range := eq_refl |}.

(** A message with content and a file length that does not fit an int64. *)
Definition too_long (id chat : string) : Message :=
  {| ID := id; ChatJID := chat; Sender := ""; Content := "file";
     Timestamp := clock 9; IsFromMe := false; MediaType := "document";
     Filename := "f.pdf"; URL := ""; MediaKey := []; FileSHA256 := [];
     FileEncSHA256 := []; FileLength := u64_high |}.

(** "/tmp/x\x00/../f" *)
Definition nul_path : string := "/tmp/x" ++ Validation.NUL ++ "/../f".

End Examples.

(** ** More of the Go library: strconv, strings.ToLower, filepath.Ext *)

Module Strconv.
Import Regexp.

(** [int] is 64 bits wide. *)
Definition minInt : Z := (- 2 ^ 63)%Z.
Definition maxInt : Z := (2 ^ 63 - 1)%Z.

Definition digit_of (c : ascii) : option Z :=
  if is_digit c then Some (Z.of_nat (nat_of_ascii c) - 48)%Z else None.

Fixpoint digits_value (acc : Z) (s : string) : option Z :=
  match s with
  | EmptyString => Some acc
  | String c s' =>
      match digit_of c with
      | Some d => digits_value (acc * 10 + d)%Z s'
      | None => None
      end
  end.

(** strconv.Atoi, as far as its callers look at it: [Some n] when the
    error is nil, [None] when it is not (the callers drop the error and the
    number that comes with it).  The text is an optional sign followed by
    one or more decimal digits, and the value must fit [int]. *)
Definition Atoi (s : string) : option Z :=
  match s with
  | EmptyString => None
  | String c rest =>
      let neg := Ascii.eqb c "-" in
      let body := if neg || Ascii.eqb c "+" then rest else s in
      match body with
      | EmptyString => None
      | String _ _ =>
          match digits_value 0 body with
          | None => None
          | Some n =>
              let v := if neg then (- n)%Z else n in
              if ((minInt <=? v) && (v <=? maxInt))%Z then Some v else None
          end
      end
  end.

(** The verb %d on a length. *)
Definition Itoa (n : nat) : string := NilEmpty.string_of_uint (Nat.to_uint n).

End Strconv.

Module Strings.

Definition is_ascii_byte (c : ascii) : bool := Nat.ltb (nat_of_ascii c) 128.

Definition is_upper (c : ascii) : bool :=
  Nat.leb 65 (nat_of_ascii c) && Nat.leb (nat_of_ascii c) 90.

Definition lower_byte (c : ascii) : ascii :=
  if is_upper c then ascii_of_nat (nat_of_ascii c + 32) else c.

Fixpoint all_ascii (s : string) : bool :=
  match s with
  | EmptyString => true
  | String c s' => is_ascii_byte c && all_ascii s'
  end.

Fixpoint lower_ascii (s : string) : string :=
  match s with
  | EmptyString => EmptyString
  | String c s' => String (lower_byte c) (lower_ascii s')
  end.

(** strings.ToLower: a string of ASCII bytes is lowered byte by byte; any
    other string goes through Map(unicode.ToLower, s), which is the
    parameter [mapLower]. *)
Definition ToLower (mapLower : string -> string) (s : string) : string :=
  if all_ascii s then lower_ascii s else mapLower s.

End Strings.

Module FilepathExt.
Import Filepath.

(** The loop of filepath.Ext, from the last byte backwards: [before] holds
    the bytes not yet visited, last first, and [after] the bytes already
    passed. *)
Fixpoint ext_loop (before : list ascii) (after : list ascii) : string :=
  match before with
  | [] => EmptyString
  | c :: more =>
      if IsPathSeparator c then EmptyString
      else if Ascii.eqb c "." then string_of_list_ascii (c :: after)
      else ext_loop more (c :: after)
  end.

(** filepath.Ext *)
Definition Ext (path : string) : string :=
  ext_loop (List.rev (list_ascii_of_string path)) [].

End FilepathExt.

(** ** Package validation, the remaining validators *)

Module ValidationMore.
Import Strings.

(** [len(content) > 4096] *)
Definition ValidateMessageContent (content : string) : error :=
  if Nat.ltb 4096 (String.length content)
  then Errorf ("message content too long: "
               ++ Strconv.Itoa (String.length content)
               ++ " characters (max 4096)")
  else nil.

Definition allowedTypes : list (string * bool) :=
  [(".jpg", true); (".jpeg", true); (".png", true); (".gif", true);
   (".webp", true); (".mp4", true); (".mov", true); (".avi", true);
   (".mp3", true); (".wav", true); (".ogg", true); (".m4a", true);
   (".pdf", true); (".doc", true); (".docx", true); (".txt", true)].

(** [m[k]] on a map[string]bool: false for a key that is absent. *)
Fixpoint map_index (m : list (string * bool)) (k : string) : bool :=
  match m with
  | [] => false
  | (k', v) :: m' => if k' =? k then v else map_index m' k
  end.

Definition ValidateMediaType (mapLower : string -> string) (filename : string)
  : error :=
  if filename =? "" then Errorf "filename cannot be empty"
  else
    let ext := ToLower mapLower (FilepathExt.Ext filename) in
    if negb (map_index allowedTypes ext)
    then Errorf ("unsupported media type: " ++ ext)
    else nil.

End ValidationMore.

(** ** Package api: request validation and query parameters *)

Module Api.
Import Validation ValidationMore.

Record SendMessageRequest : Type := {
  Recipient : string;
  Message   : string
}.

(** The field Recipient of SendFileRequest is [FileRecipient] here: the
    name [Recipient] is taken by the record above. *)
Record SendFileRequest : Type := {
  FileRecipient : string;
  FilePath      : string
}.

(** fmt.Errorf("...: %w", err) *)
Definition wrap (prefix : string) (err : string) : error :=
  Errorf (prefix ++ err).

Definition validateSendMessageRequest (req : SendMessageRequest) : error :=
  match ValidateRecipient (Recipient req) with
  | Some err => wrap "invalid recipient: " err
  | None =>
      match ValidateMessageContent (Message req) with
      | Some err => wrap "invalid message: " err
      | None => nil
      end
  end.

Definition validateSendFileRequest (getwd : result string)
           (req : SendFileRequest) : error :=
  match ValidateRecipient (FileRecipient req) with
  | Some err => wrap "invalid recipient: " err
  | None =>
      match ValidateFilePath getwd (FilePath req) with
      | Some err => wrap "invalid file path: " err
      | None => nil
      end
  end.

(** url.Values, the parsed query of the request: keys with their values. *)
Definition Values := list (string * list string).

(** Values.Get: the first value of the key, "" when there is none. *)
Fixpoint Get (v : Values) (key : string) : string :=
  match v with
  | [] => EmptyString
  | (k, vs) :: v' =>
      if k =? key then match vs with
                       | [] => EmptyString
                       | x :: _ => x
                       end
      else Get v' key
  end.

(** parseQueryParams, on the query of the request. *)
Definition parseQueryParams (query : Values) : Z * Z * error :=
  let limitStr := Get query "limit" in
  let limit :=
    if limitStr =? "" then Some 20%Z
    else match Strconv.Atoi limitStr with
         | None => None
         | Some l => if ((l <? 1) || (100 <? l))%Z then None else Some l
         end in
  match limit with
  | None => (0%Z, 0%Z, Errorf "invalid limit parameter")
  | Some l =>
      let offsetStr := Get query "offset" in
      let offset :=
        if offsetStr =? "" then Some 0%Z
        else match Strconv.Atoi offsetStr with
             | None => None
             | Some o => if (o <? 0)%Z then None else Some o
             end in
      match offset with
      | None => (0%Z, 0%Z, Errorf "invalid offset parameter")
      | Some o => (l, o, nil)
      end
  end.

End Api.

(** ** Package config *)

Module Config.

Record Config : Type := {
  DatabasePath : string;
  APIPort      : Z;
  StoreDir     : string;
  LogLevel     : string
}.

(** The environment of the process: os.Getenv, "" for a variable that is
    not set. *)
Definition Env := string -> string.

Definition getEnv (env : Env) (key defaultValue : string) : string :=
  if negb (env key =? "") then env key else defaultValue.

Definition getEnvAsInt (env : Env) (key : string) (defaultValue : Z) : Z :=
  if negb (env key =? "")
  then match Strconv.Atoi (env key) with
       | Some intValue => intValue
       | None => defaultValue
       end
  else defaultValue.

Definition LoadConfig (env : Env) : Config :=
  {| DatabasePath := getEnv env "WHATSAPP_DB_PATH" "store/messages.db";
     APIPort := getEnvAsInt env "WHATSAPP_API_PORT" 8080;
     StoreDir := getEnv env "WHATSAPP_STORE_DIR" "store";
     LogLevel := getEnv env "WHATSAPP_LOG_LEVEL" "info" |}.

(** An environment given by the variables that are set. *)
Fixpoint env_of (vars : list (string * string)) : Env :=
  fun key =>
    match vars with
    | [] => EmptyString
    | (k, v) :: vars' => if k =? key then v else env_of vars' key
    end.

End Config.

(** ** Vocabulary of the further properties *)

Module MoreShapes.
Import Regexp.

(** A byte a valid recipient may hold: a digit, '-', '@', '.', or a
    lower-case letter. *)
Definition recipient_byte (c : ascii) : bool :=
  is_digit c
  || Ascii.eqb c "-" || Ascii.eqb c "@" || Ascii.eqb c "."
  || (Nat.leb 97 (nat_of_ascii c) && Nat.leb (nat_of_ascii c) 122).

Fixpoint all_bytes (p : ascii -> bool) (s : string) : bool :=
  match s with
  | EmptyString => true
  | String c s' => p c && all_bytes p s'
  end.

(** The sixteen extensions with which ValidateMediaType is content. *)
Definition allowed_extension (e : string) : Prop :=
  In e [".jpg"; ".jpeg"; ".png"; ".gif"; ".webp"; ".mp4"; ".mov"; ".avi";
        ".mp3"; ".wav"; ".ogg"; ".m4a"; ".pdf"; ".doc"; ".docx"; ".txt"].

(** A byte that ends neither a path element nor an extension. *)
Definition plain_byte (c : ascii) : bool :=
  negb (Filepath.IsPathSeparator c) && negb (Ascii.eqb c ".").

(** A dot followed by plain bytes. *)
Definition ext_shape (e : string) : bool :=
  match e with
  | EmptyString => false
  | String c t => Ascii.eqb c "." && all_bytes plain_byte t
  end.

End MoreShapes.

Module PathShapes.
Import Filepath.
Local Open Scope list_scope.

Definition is_dot (c : ascii) : bool := Ascii.eqb c ".".

(** No two neighbouring bytes are both '.'. *)
Fixpoint no_dotdot (l : list ascii) : bool :=
  match l with
  | [] => true
  | a :: t =>
      match t with
      | [] => true
      | b :: _ => negb (is_dot a && is_dot b) && no_dotdot t
      end
  end.

Definition no_nul (l : list ascii) : bool :=
  forallb (fun c => negb (Ascii.eqb c Ascii.zero)) l.

(** What Clean keeps true of its buffer on a rooted path whose elements
    are clean: it ends in the root, and read forwards it has neither ".."
    nor a null byte. *)
Definition clean_buf (b : lazybuf) : Prop :=
  (exists o, out b = o ++ [Separator])
  /\ dotdot b = 1
  /\ no_dotdot (List.rev (out b)) = true
  /\ no_nul (List.rev (out b)) = true.

(** What Clean keeps true of its buffer on a path that is not rooted: the
    first byte written, if any, is not a separator. *)
Definition relative_buf (b : lazybuf) : Prop :=
  out b = [] \/ exists o c, out b = o ++ [c] /\ IsPathSeparator c = false.

End PathShapes.

(** * Properties *)

(** ** Strings *)

Section StringFacts.

Lemma append_empty_r (s : string) : s ++ "" = s.
Proof. induction s as [|c s IH]; simpl; [reflexivity | now rewrite IH]. Qed.

Lemma append_assoc (a b c : string) : (a ++ b) ++ c = a ++ (b ++ c).
Proof. induction a as [|x a IH]; simpl; [reflexivity | now rewrite IH]. Qed.

Lemma length_append (a b : string) :
  String.length (a ++ b) = String.length a + String.length b.
Proof. induction a as [|x a IH]; simpl; [reflexivity | now rewrite IH]. Qed.

Lemma append_eq_empty (a b : string) : a ++ b = "" -> a = "" /\ b = "".
Proof. destruct a; simpl; intros H; [now split | discriminate]. Qed.

Lemma bytes_append (a b : string) :
  list_ascii_of_string (a ++ b)
  = (list_ascii_of_string a ++ list_ascii_of_string b)%list.
Proof. induction a as [|x a IH]; simpl; [reflexivity | now rewrite IH]. Qed.

Lemma bytes_inj (a b : string) :
  list_ascii_of_string a = list_ascii_of_string b -> a = b.
Proof.
  intros H.
  rewrite <- (string_of_list_ascii_of_string a),
          <- (string_of_list_ascii_of_string b).
  now rewrite H.
Qed.

Lemma append_inv_tail (a b t : string) : a ++ t = b ++ t -> a = b.
Proof.
  intros H. apply bytes_inj.
  apply (f_equal list_ascii_of_string) in H.
  rewrite !bytes_append in H.
  now apply app_inv_tail in H.
Qed.

(** Two strings that end in different bytes are different. *)
Lemma append_last_neq (a b : string) (x y : ascii) :
  x <> y -> a ++ String x "" <> b ++ String y "".
Proof.
  intros Hxy H.
  apply (f_equal list_ascii_of_string) in H.
  rewrite !bytes_append in H. simpl in H.
  apply app_inj_tail in H. now destruct H.
Qed.

Lemma split_at (n : nat) (s : string) :
  n <= String.length s ->
  exists s1 s2, s = s1 ++ s2 /\ String.length s1 = n.
Proof.
  revert s. induction n as [|n IH]; intros s Hn.
  - exists "", s. now split.
  - destruct s as [|c s]; simpl in Hn; [lia|].
    destruct (IH s ltac:(lia)) as (s1 & s2 & -> & Hl).
    exists (String c s1), s2. simpl. now rewrite Hl.
Qed.

(** Byte-wise comparison of texts is transitive. *)
Lemma text_compare_trans : forall a b c : string,
  String.compare a b <> Gt -> String.compare b c <> Gt ->
  String.compare a c <> Gt.
Proof.
  induction a as [|x a IH]; intros [|y b] [|z c]; simpl; try congruence.
  unfold Ascii.compare.
  destruct (N.compare_spec (N_of_ascii x) (N_of_ascii y)) as [Exy|Lxy|Gxy];
    [|intros _|congruence].
  - rewrite Exy. destruct (N.compare (N_of_ascii y) (N_of_ascii z));
      [apply IH | congruence | congruence].
  - destruct (N.compare_spec (N_of_ascii y) (N_of_ascii z)) as [Eyz|Lyz|Gyz];
      [intros _|intros _|congruence].
    + rewrite <- Eyz.
      destruct (N.compare_spec (N_of_ascii x) (N_of_ascii y));
        [lia | congruence | lia].
    + destruct (N.compare_spec (N_of_ascii x) (N_of_ascii z));
        [lia | congruence | lia].
Qed.

Lemma text_leb_trans (a b c : string) :
  (a <=? b)%string = true -> (b <=? c)%string = true ->
  (a <=? c)%string = true.
Proof.
  unfold String.leb. intros Hab Hbc.
  assert (H := text_compare_trans a b c).
  destruct (String.compare a b), (String.compare b c), (String.compare a c);
    try reflexivity; try discriminate; exfalso; apply H; congruence.
Qed.

(** Strictly below excludes above or equal. *)
Lemma text_ltb_not_leb (a b : string) :
  (a <? b)%string = true -> (b <=? a)%string = false.
Proof.
  unfold String.ltb, String.leb. rewrite (String.compare_antisym b a).
  now destruct (String.compare a b).
Qed.

End StringFacts.

(** ** The matcher decides the language of the pattern *)

Module RegexpFacts.
Import Regexp.

Create HintDb re.
#[local] Hint Constructors lang : re.

Lemma lang_seq_inv r1 r2 s :
  lang (Seq r1 r2) s ->
  exists s1 s2, s = s1 ++ s2 /\ lang r1 s1 /\ lang r2 s2.
Proof. inversion 1; subst; eauto. Qed.

Lemma lang_alt_inv r1 r2 s : lang (Alt r1 r2) s -> lang r1 s \/ lang r2 s.
Proof. inversion 1; subst; auto. Qed.

Lemma lang_star_cons r c s :
  lang (Star r) (String c s) ->
  exists s1 s2, s = s1 ++ s2 /\ lang r (String c s1) /\ lang (Star r) s2.
Proof.
  intros H.
  remember (Star r) as r' eqn:Er. remember (String c s) as t eqn:Et.
  revert r c s Er Et.
  induction H as [| | | | | | |r0 s1 s2 H1 _ H2 IH2]; intros rr cc ss Er Et;
    try discriminate.
  injection Er as ->.
  destruct s1 as [|c1 s1]; simpl in Et.
  - now apply IH2.
  - injection Et as -> <-. eauto.
Qed.

Lemma nullable_spec r : nullable r = true <-> lang r "".
Proof.
  induction r as [| | | |r1 IH1 r2 IH2|r1 IH1 r2 IH2|r IH]; simpl.
  - split; [discriminate | inversion 1].
  - split; auto with re.
  - split; [discriminate | inversion 1].
  - split; [discriminate | inversion 1].
  - rewrite orb_true_iff, IH1, IH2. split.
    + intros [H|H]; auto with re.
    + apply lang_alt_inv.
  - rewrite andb_true_iff, IH1, IH2. split.
    + intros [H1 H2]. change "" with ("" ++ ""). auto with re.
    + intros H. apply lang_seq_inv in H as (s1 & s2 & E & H1 & H2).
      symmetry in E. apply append_eq_empty in E as [-> ->]. now split.
  - split; auto with re.
Qed.

Lemma deriv_spec c r : forall s, lang (deriv c r) s <-> lang r (String c s).
Proof.
  induction r as [| | d | |r1 IH1 r2 IH2|r1 IH1 r2 IH2|r IH]; intros s; simpl.
  - split; inversion 1.
  - split; inversion 1.
  - destruct (Ascii.eqb_spec c d) as [->|Hne]; split; inversion 1; subst;
      auto with re; congruence.
  - destruct (is_digit c) eqn:Hd; split; inversion 1; subst;
      auto with re; congruence.
  - split.
    + intros H. apply lang_alt_inv in H as [H|H];
        [apply L_AltL, IH1 | apply L_AltR, IH2]; exact H.
    + intros H. apply lang_alt_inv in H as [H|H];
        [apply L_AltL, IH1 | apply L_AltR, IH2]; exact H.
  - assert (Hfwd : forall t, lang (Seq (deriv c r1) r2) t ->
                             lang (Seq r1 r2) (String c t)).
    { intros t H. apply lang_seq_inv in H as (s1 & s2 & -> & H1 & H2).
      change (String c (s1 ++ s2)) with (String c s1 ++ s2).
      apply L_Seq; [now apply IH1 | exact H2]. }
    destruct (nullable r1) eqn:Hn.
    + split.
      * intros H. apply lang_alt_inv in H as [H|H]; [now apply Hfwd|].
        change (String c s) with ("" ++ String c s).
        apply L_Seq; [now apply nullable_spec | now apply IH2].
      * intros H. apply lang_seq_inv in H as (s1 & s2 & E & H1 & H2).
        destruct s1 as [|c1 s1]; simpl in E.
        -- subst s2. apply L_AltR. now apply IH2.
        -- injection E as <- ->. apply L_AltL.
           apply L_Seq; [now apply IH1 | exact H2].
    + split; [apply Hfwd|].
      intros H. apply lang_seq_inv in H as (s1 & s2 & E & H1 & H2).
      destruct s1 as [|c1 s1]; simpl in E.
      * apply nullable_spec in H1. congruence.
      * injection E as <- ->. apply L_Seq; [now apply IH1 | exact H2].
  - split.
    + intros H. apply lang_seq_inv in H as (s1 & s2 & -> & H1 & H2).
      change (String c (s1 ++ s2)) with (String c s1 ++ s2).
      apply L_StarS; [now apply IH | exact H2].
    + intros H. apply lang_star_cons in H as (s1 & s2 & -> & H1 & H2).
      apply L_Seq; [now apply IH | exact H2].
Qed.

Theorem MatchString_spec s : forall r, MatchString r s = true <-> lang r s.
Proof.
  induction s as [|c s IH]; intros r; simpl.
  - apply nullable_spec.
  - rewrite IH. apply deriv_spec.
Qed.

End RegexpFacts.

(** ** The three patterns of the validation package *)

Module PatternFacts.
Import Regexp RegexpFacts Validation.

Lemma all_digits_append a b :
  all_digits (a ++ b) = all_digits a && all_digits b.
Proof.
  induction a as [|c a IH]; simpl; [reflexivity|].
  now rewrite IH, andb_assoc.
Qed.

Lemma lang_lit_inv c s : lang (Lit c) s -> s = String c "".
Proof. now inversion 1. Qed.

Lemma lang_digit_inv s :
  lang Digit s -> exists c, s = String c "" /\ is_digit c = true.
Proof. inversion 1; subst; eauto. Qed.

Lemma lang_Str t : forall s, lang (Str t) s <-> s = t.
Proof.
  induction t as [|c t IH]; intros s; simpl.
  - split; [now inversion 1 | intros ->; constructor].
  - split.
    + intros H. apply lang_seq_inv in H as (s1 & s2 & -> & H1 & H2).
      apply lang_lit_inv in H1 as ->. apply IH in H2 as ->. reflexivity.
    + intros ->. change (String c t) with (String c "" ++ t).
      constructor; [constructor | now apply IH].
Qed.

Lemma lang_star_digit s : lang (Star Digit) s <-> all_digits s = true.
Proof.
  induction s as [|c s IH]; simpl.
  - split; auto using L_Star0.
  - rewrite andb_true_iff, <- IH. split.
    + intros H. apply lang_star_cons in H as (s1 & s2 & -> & H1 & H2).
      apply lang_digit_inv in H1 as (d & E & Hd).
      injection E as -> ->. now split.
    + intros [Hd Hs]. change (String c s) with (String c "" ++ s).
      apply L_StarS; [now constructor | exact Hs].
Qed.

Lemma lang_plus_digit s :
  lang (Plus Digit) s <-> all_digits s = true /\ s <> "".
Proof.
  unfold Plus. split.
  - intros H. apply lang_seq_inv in H as (s1 & s2 & -> & H1 & H2).
    apply lang_digit_inv in H1 as (d & -> & Hd).
    apply lang_star_digit in H2. simpl. rewrite Hd, H2. now split.
  - intros [Hs Hne]. destruct s as [|c s]; [congruence|].
    simpl in Hs. apply andb_true_iff in Hs as [Hd Hs].
    change (String c s) with (String c "" ++ s).
    constructor; [now constructor | now apply lang_star_digit].
Qed.

Lemma lang_exactly_digit n :
  forall s, lang (Exactly n Digit) s
            <-> all_digits s = true /\ String.length s = n.
Proof.
  induction n as [|n IH]; intros s; simpl.
  - split.
    + inversion 1. now split.
    + intros [_ Hl]. destruct s; [constructor | discriminate].
  - split.
    + intros H. apply lang_seq_inv in H as (s1 & s2 & -> & H1 & H2).
      apply lang_digit_inv in H1 as (d & -> & Hd).
      apply IH in H2 as [H2 Hl]. simpl. rewrite Hd, H2, Hl. now split.
    + intros [Hs Hl]. destruct s as [|c s]; [discriminate|].
      simpl in Hs, Hl. apply andb_true_iff in Hs as [Hd Hs].
      change (String c s) with (String c "" ++ s).
      constructor; [now constructor|]. apply IH. split; [exact Hs | lia].
Qed.

Lemma lang_atmost_digit n :
  forall s, lang (AtMost n Digit) s
            <-> all_digits s = true /\ String.length s <= n.
Proof.
  induction n as [|n IH]; intros s; simpl.
  - split.
    + inversion 1. now split.
    + intros [_ Hl]. destruct s; [constructor | simpl in Hl; lia].
  - split.
    + intros H. apply lang_alt_inv in H as [H|H].
      * inversion H. simpl. split; [reflexivity | lia].
      * apply lang_seq_inv in H as (s1 & s2 & -> & H1 & H2).
        apply lang_digit_inv in H1 as (d & -> & Hd).
        apply IH in H2 as [H2 Hl]. simpl. rewrite Hd, H2. split; [easy | lia].
    + intros [Hs Hl]. destruct s as [|c s]; [apply L_AltL; constructor|].
      simpl in Hs, Hl. apply andb_true_iff in Hs as [Hd Hs].
      apply L_AltR. change (String c s) with (String c "" ++ s).
      constructor; [now constructor|]. apply IH. split; [exact Hs | lia].
Qed.

Lemma lang_repeat_digit lo hi s :
  lo <= hi ->
  lang (Repeat lo hi Digit) s
  <-> all_digits s = true /\ lo <= String.length s <= hi.
Proof.
  intros Hle. unfold Repeat. split.
  - intros H. apply lang_seq_inv in H as (s1 & s2 & -> & H1 & H2).
    apply lang_exactly_digit in H1 as [H1 L1].
    apply lang_atmost_digit in H2 as [H2 L2].
    rewrite all_digits_append, length_append, H1, H2. split; [easy | lia].
  - intros [Hs [Hlo Hhi]].
    destruct (split_at lo s Hlo) as (s1 & s2 & -> & L1).
    rewrite all_digits_append in Hs. apply andb_true_iff in Hs as [H1 H2].
    rewrite length_append in Hhi.
    constructor; [apply lang_exactly_digit | apply lang_atmost_digit];
      (split; [assumption | lia]).
Qed.

(** [^\d{10,15}$] *)
Lemma phonePattern_spec s :
  MatchString phonePattern s = true
  <-> all_digits s = true /\ 10 <= String.length s <= 15.
Proof.
  rewrite MatchString_spec. unfold phonePattern.
  apply lang_repeat_digit. lia.
Qed.

(** [^\d{10,15}@s\.whatsapp\.net$] *)
Lemma phoneJIDPattern_spec s :
  MatchString phoneJIDPattern s = true
  <-> exists d, s = d ++ "@s.whatsapp.net"
                /\ all_digits d = true /\ 10 <= String.length d <= 15.
Proof.
  rewrite MatchString_spec. unfold phoneJIDPattern. split.
  - intros H. apply lang_seq_inv in H as (d & t & -> & H1 & H2).
    apply lang_Str in H2 as ->.
    apply lang_repeat_digit in H1; [|lia]. now exists d.
  - intros (d & -> & Hd).
    constructor; [apply lang_repeat_digit; [lia | exact Hd] | now apply lang_Str].
Qed.

(** [^\d+-\d+@g\.us$] *)
Lemma groupJIDPattern_spec s :
  MatchString groupJIDPattern s = true
  <-> exists a b, s = a ++ "-" ++ b ++ "@g.us"
                  /\ (all_digits a = true /\ a <> "")
                  /\ (all_digits b = true /\ b <> "").
Proof.
  rewrite MatchString_spec. unfold groupJIDPattern. split.
  - intros H.
    apply lang_seq_inv in H as (a & t1 & -> & Ha & H).
    apply lang_seq_inv in H as (h & t2 & -> & Hh & H).
    apply lang_seq_inv in H as (b & t3 & -> & Hb & H).
    apply lang_lit_inv in Hh as ->. apply lang_Str in H as ->.
    apply lang_plus_digit in Ha, Hb. now exists a, b.
  - intros (a & b & -> & Ha & Hb).
    constructor; [now apply lang_plus_digit|].
    constructor; [constructor|].
    constructor; [now apply lang_plus_digit | now apply lang_Str].
Qed.

End PatternFacts.

(** ** Identity validation *)

Module ValidationFacts.
Import GoString Regexp RegexpFacts PatternFacts Validation Shapes.

Lemma ValidateJID_spec s :
  ValidateJID s = nil
  <-> MatchString phoneJIDPattern s = true
      \/ MatchString groupJIDPattern s = true.
Proof.
  unfold ValidateJID. destruct (String.eqb_spec s "") as [->|Hne].
  - vm_compute. split; [discriminate | intros [H|H]; discriminate].
  - rewrite <- orb_true_iff.
    destruct (MatchString phoneJIDPattern s || MatchString groupJIDPattern s);
      split; (reflexivity || discriminate).
Qed.

Lemma ValidatePhoneNumber_spec s :
  ValidatePhoneNumber s = nil <-> bare_number s.
Proof.
  unfold ValidatePhoneNumber, bare_number. rewrite <- phonePattern_spec.
  destruct (String.eqb_spec s "") as [->|Hne].
  - vm_compute. split; discriminate.
  - destruct (MatchString phonePattern s); simpl;
      split; (reflexivity || discriminate).
Qed.

Lemma ValidateJID_forms s :
  ValidateJID s = nil <->
  (exists d, s = d ++ "@s.whatsapp.net"
             /\ all_digits d = true /\ 10 <= String.length d <= 15)
  \/ group_form s.
Proof.
  rewrite ValidateJID_spec, phoneJIDPattern_spec, groupJIDPattern_spec.
  reflexivity.
Qed.

(** No string ends both in the user domain and in the group domain. *)
Lemma domains_disjoint d a b :
  d ++ "@s.whatsapp.net" <> a ++ "-" ++ b ++ "@g.us".
Proof.
  replace (d ++ "@s.whatsapp.net") with ((d ++ "@s.whatsapp.ne") ++ "t")
    by (now rewrite append_assoc).
  replace (a ++ "-" ++ b ++ "@g.us") with ((a ++ "-" ++ b ++ "@g.u") ++ "s")
    by (rewrite !append_assoc; reflexivity).
  apply append_last_neq. discriminate.
Qed.

(** C8: ValidateRecipient accepts exactly the bare numbers and the strings
    ValidateJID accepts; ValidateJID accepts only strings of the user form
    or of the group form; "1234567890" is a valid recipient,
    "123456789-123456789@g.us" a valid recipient and a valid JID, and both
    validators reject "" and "invalid". *)
Theorem C8_recipient_is_number_or_jid :
  (forall s, ValidateRecipient s = nil
             <-> bare_number s \/ ValidateJID s = nil)
  /\ (forall s, ValidateJID s = nil -> user_form s \/ group_form s)
  /\ ValidateRecipient "1234567890" = nil
  /\ ValidateRecipient "123456789-123456789@g.us" = nil
  /\ ValidateJID "123456789-123456789@g.us" = nil
  /\ ValidateRecipient "" <> nil /\ ValidateJID "" <> nil
  /\ ValidateRecipient "invalid" <> nil /\ ValidateJID "invalid" <> nil.
Proof.
  split; [|split].
  - intros s. rewrite <- ValidatePhoneNumber_spec. unfold ValidateRecipient.
    destruct (String.eqb_spec s "") as [->|Hne].
    + vm_compute. split; [discriminate | intros [H|H]; discriminate].
    + destruct (ValidatePhoneNumber s) as [e1|];
        destruct (ValidateJID s) as [e2|]; unfold nil, Errorf;
        split; auto; try discriminate; intros [H|H]; discriminate.
  - intros s H. apply ValidateJID_forms in H as [(d & -> & Hd & Hl)|H].
    + left. exists d. repeat split; try assumption.
      intros ->. simpl in Hl. lia.
    + now right.
  - repeat split; try reflexivity; vm_compute; discriminate.
Qed.

Lemma C8_recipient_is_number_or_jid_witness :
  ValidateRecipient "4915123456789" = nil
  /\ (user_form "4915123456789@s.whatsapp.net"
      \/ group_form "4915123456789@s.whatsapp.net").
Proof.
  split.
  - apply (proj1 C8_recipient_is_number_or_jid). left.
    split; [reflexivity | simpl; lia].
  - apply (proj1 (proj2 C8_recipient_is_number_or_jid)). reflexivity.
Defined.

(** C9: a string ending in the user domain is accepted by ValidateJID
    exactly when what precedes the domain is 10 to 15 digits; in the group
    form any two non-empty digit strings are accepted;
    "123456789@s.whatsapp.net" is rejected and "1-2@g.us" accepted. *)
Theorem C9_user_jid_needs_10_to_15_digits :
  (forall d, ValidateJID (d ++ "@s.whatsapp.net") = nil
             <-> all_digits d = true /\ 10 <= String.length d <= 15)
  /\ (forall a b, all_digits a = true -> a <> "" ->
                  all_digits b = true -> b <> "" ->
                  ValidateJID (a ++ "-" ++ b ++ "@g.us") = nil)
  /\ ValidateJID "123456789@s.whatsapp.net" <> nil
  /\ ValidateJID "1-2@g.us" = nil.
Proof.
  split; [|split; [|split]].
  - intros d. rewrite ValidateJID_forms. split.
    + intros [(d' & E & Hd)|(a & b & E & _)].
      * apply append_inv_tail in E as <-. exact Hd.
      * now apply domains_disjoint in E.
    + intros Hd. left. now exists d.
  - intros a b Ha Ha' Hb Hb'. apply ValidateJID_forms. right.
    exists a, b. repeat split; assumption.
  - vm_compute. discriminate.
  - reflexivity.
Qed.

Lemma C9_user_jid_needs_10_to_15_digits_witness :
  ValidateJID ("7" ++ "-" ++ "42" ++ "@g.us") = nil
  /\ (all_digits "12345678901" = true
      /\ 10 <= String.length "12345678901" <= 15).
Proof.
  split.
  - apply (proj1 (proj2 C9_user_jid_needs_10_to_15_digits));
      (reflexivity || discriminate).
  - apply (proj1 C9_user_jid_needs_10_to_15_digits). reflexivity.
Defined.

End ValidationFacts.

(** ** Path validation *)

Module PathFacts.
Import GoString Filepath Validation Shapes.

Lemma Contains_prefix s t : HasPrefix s t = true -> Contains s t = true.
Proof. intros H. destruct s; simpl in *; now rewrite H. Qed.

Lemma Contains_tail c s t : Contains s t = true -> Contains (String c s) t = true.
Proof. intros H. simpl. rewrite H. apply orb_true_r. Qed.

Lemma elements_head s :
  exists e es, elements s = e :: es /\ HasPrefix s e = true.
Proof.
  induction s as [|c s (e & es & E & Hp)]; simpl.
  - now exists "", [].
  - destruct (IsPathSeparator c).
    + now exists "", (elements s).
    + rewrite E. exists (String c e), es. split; [reflexivity|].
      simpl. now rewrite Ascii.eqb_refl.
Qed.

(** Every element of a path is a substring of the path. *)
Lemma element_is_substring s :
  forall e, In e (elements s) -> Contains s e = true.
Proof.
  induction s as [|c s IH]; simpl; intros e He.
  - destruct He as [<-|[]]. reflexivity.
  - destruct (IsPathSeparator c).
    + destruct He as [<-|He]; [reflexivity|].
      rewrite (IH _ He). apply orb_true_r.
    + destruct (elements_head s) as (e0 & es & E & Hp).
      rewrite E in He, IH. destruct He as [<-|He].
      * simpl. now rewrite Ascii.eqb_refl, Hp.
      * rewrite (IH e (or_intror He)). apply orb_true_r.
Qed.

Lemma ValidateFilePath_empty getwd : ValidateFilePath getwd "" <> nil.
Proof. discriminate. Qed.

Lemma ValidateFilePath_dotdot getwd path :
  Contains (Clean path) ".." = true -> ValidateFilePath getwd path <> nil.
Proof.
  intros H. unfold ValidateFilePath.
  destruct (path =? ""); [discriminate|].
  rewrite H. discriminate.
Qed.

Lemma ValidateFilePath_traversal getwd path :
  has_dotdot_segment (Clean path) -> ValidateFilePath getwd path <> nil.
Proof.
  intros H. apply ValidateFilePath_dotdot. now apply element_is_substring.
Qed.

Lemma ValidateFilePath_unresolved getwd path e :
  Abs getwd (Clean path) = Failed e -> ValidateFilePath getwd path <> nil.
Proof.
  intros H. unfold ValidateFilePath.
  destruct (path =? ""); [discriminate|].
  destruct (Contains (Clean path) ".."); [discriminate|].
  rewrite H. discriminate.
Qed.

Lemma ValidateFilePath_nul_resolved getwd path absPath :
  Abs getwd (Clean path) = Ok absPath -> Contains absPath NUL = true ->
  ValidateFilePath getwd path <> nil.
Proof.
  intros H Hn. unfold ValidateFilePath.
  destruct (path =? ""); [discriminate|].
  destruct (Contains (Clean path) ".."); [discriminate|].
  rewrite H, Hn. discriminate.
Qed.

(** The whole decision: only the path and the working directory enter. *)
Lemma ValidateFilePath_passes getwd path :
  ValidateFilePath getwd path = nil <->
  path <> ""
  /\ Contains (Clean path) ".." = false
  /\ exists absPath, Abs getwd (Clean path) = Ok absPath
                     /\ Contains absPath NUL = false.
Proof.
  unfold ValidateFilePath.
  destruct (String.eqb_spec path "") as [->|Hne].
  - split; [discriminate | intros [H _]; congruence].
  - destruct (Contains (Clean path) "..").
    + split; [discriminate | intros (_ & H & _); discriminate].
    + destruct (Abs getwd (Clean path)) as [a|e].
      * destruct (Contains a NUL) eqn:Hn.
        -- split; [discriminate|].
           intros (_ & _ & a' & E & Hn'). congruence.
        -- split; [|reflexivity]. intros _. repeat split; eauto.
      * split; [discriminate|].
        intros (_ & _ & a' & E & _). discriminate.
Qed.

(** A rooted path stays rooted through Clean: the leading separator is
    never backtracked over. *)
Lemma backtrack_keeps_root (o : list ascii) :
  o <> [] ->
  exists o', backtrack 1 (o ++ [Separator]) = (o' ++ [Separator])%list.
Proof.
  induction o as [|c o IH]; intros Hne; [congruence|]. simpl.
  destruct (Nat.ltb_spec 1 (List.length (o ++ [Separator]))) as [Hlt|Hge];
    simpl; [|now exists o].
  destruct (IsPathSeparator c); simpl; [now exists o|].
  apply IH. intros ->. simpl in Hlt. lia.
Qed.

Lemma clean_step_keeps_root (b : lazybuf) (e : string) :
  (exists o, out b = (o ++ [Separator])%list) /\ dotdot b = 1 ->
  (exists o, out (clean_step true b e) = (o ++ [Separator])%list)
  /\ dotdot (clean_step true b e) = 1.
Proof.
  intros [(o & Ho) Hd]. unfold clean_step.
  destruct ((e =? "") || (e =? ".")); [eauto|].
  destruct (e =? "..").
  - rewrite Hd, Ho.
    destruct (Nat.ltb_spec 1 (List.length (o ++ [Separator]))) as [Hlt|Hge];
      simpl; [|rewrite Ho; eauto].
    split; [|reflexivity]. apply backtrack_keeps_root.
    intros ->. simpl in Hlt. lia.
  - simpl. split; [|exact Hd]. unfold push_string.
    rewrite rev_append_rev, Ho.
    destruct (negb (Nat.eqb (List.length (o ++ [Separator])) 1) || false).
    + exists (List.rev (list_ascii_of_string e) ++ Separator :: o)%list.
      now rewrite <- app_assoc.
    + exists (List.rev (list_ascii_of_string e) ++ o)%list.
      now rewrite <- app_assoc.
Qed.

Lemma Clean_keeps_root path : IsAbs path = true -> IsAbs (Clean path) = true.
Proof.
  destruct path as [|c rest]; [discriminate|]. intros Habs.
  assert (Hr : IsPathSeparator c = true).
  { unfold IsAbs in Habs. cbn [HasPrefix] in Habs.
    apply andb_true_iff in Habs as [H _].
    unfold IsPathSeparator, Separator. now rewrite Ascii.eqb_sym. }
  assert (Hinv : forall es b,
             (exists o, out b = (o ++ [Separator])%list) /\ dotdot b = 1 ->
             exists o, out (fold_left (clean_step true) es b)
                       = (o ++ [Separator])%list).
  { induction es as [|e es IH]; intros b Hb; cbn [fold_left]; [tauto|].
    apply IH. now apply clean_step_keeps_root. }
  destruct (Hinv (elements rest) {| out := [Separator]; dotdot := 1 |})
    as (o & Ho).
  { split; [now exists [] | reflexivity]. }
  unfold Clean. rewrite Hr, Ho.
  destruct (o ++ [Separator])%list eqn:E; [now destruct o|].
  rewrite <- E, rev_app_distr.
  change (rev [Separator] ++ rev o)%list with (Separator :: rev o).
  cbn [string_of_list_ascii]. unfold IsAbs.
  destruct (string_of_list_ascii (rev o)); reflexivity.
Qed.

(** For an absolute path the working directory is not read either: the
    decision is a function of the path alone. *)
Lemma ValidateFilePath_absolute getwd1 getwd2 path :
  IsAbs path = true ->
  ValidateFilePath getwd1 path = ValidateFilePath getwd2 path.
Proof.
  intros Habs. unfold ValidateFilePath, Abs.
  now rewrite (Clean_keeps_root path Habs).
Qed.

Example traversal_example getwd :
  ValidateFilePath getwd "../../../etc/passwd" <> nil.
Proof. discriminate. Qed.

Example nul_example getwd :
  ValidateFilePath getwd ("/dev/null" ++ NUL) <> nil.
Proof. discriminate. Qed.

Example missing_file_example getwd :
  ValidateFilePath getwd "/nonexistent/file.txt" = nil.
Proof. reflexivity. Qed.

(** C7, at the input "/tmp/x\x00/../f": the path contains a null byte, its
    element "x\x00" is removed by Clean together with the ".." that
    follows it, and ValidateFilePath, which looks for the null byte in the
    cleaned absolute path only, returns nil. *)
Theorem C7_null_byte_in_removed_element_passes :
  Contains Examples.nul_path NUL = true
  /\ Clean Examples.nul_path = "/tmp/f"
  /\ forall getwd, ValidateFilePath getwd Examples.nul_path = nil.
Proof. repeat split. Qed.

(** C10: ValidateFilePath fails whenever the cleaned path contains ".."
    as a substring; "/tmp/report..pdf" is absolute, is its own cleaned
    form, has no ".." element, and fails. *)
Theorem C10_dotdot_substring_is_rejected :
  (forall getwd path,
      Contains (Clean path) ".." = true ->
      ValidateFilePath getwd path <> nil)
  /\ IsAbs "/tmp/report..pdf" = true
  /\ Clean "/tmp/report..pdf" = "/tmp/report..pdf"
  /\ ~ has_dotdot_segment "/tmp/report..pdf"
  /\ forall getwd, ValidateFilePath getwd "/tmp/report..pdf" <> nil.
Proof.
  split; [|repeat split].
  - intros getwd path. apply ValidateFilePath_dotdot.
  - unfold has_dotdot_segment. simpl.
    intros [H|[H|[H|[]]]]; discriminate.
  - discriminate.
Qed.

Lemma C10_dotdot_substring_is_rejected_witness :
  Contains (Clean "/srv/media/a..b/c.png") ".." = true
  /\ ValidateFilePath (Ok "/srv") "/srv/media/a..b/c.png" <> nil.
Proof.
  split; [reflexivity|].
  apply (proj1 C10_dotdot_substring_is_rejected). reflexivity.
Defined.

End PathFacts.

(** ** Chat classification *)

Module ClassifierFacts.
Import GoString Validation Database.

Lemma slice_from_length n :
  forall s, String.length (slice_from n s) = String.length s - n.
Proof.
  induction n as [|n IH]; intros [|c s]; simpl; auto.
Qed.

(** The suffix compared with "@g.us" (5 bytes) is 6 bytes long. *)
Lemma IsGroup_false c : IsGroup c = false.
Proof.
  unfold IsGroup. destruct (Nat.ltb_spec 6 (String.length (JID c))) as [H|H];
    [simpl | reflexivity].
  apply String.eqb_neq. intros E. apply (f_equal String.length) in E.
  rewrite slice_from_length in E. simpl in E. lia.
Qed.

(** The suffix compared with "@s.whatsapp.net" (15 bytes) is 13 bytes long. *)
Lemma IsContact_false c : IsContact c = false.
Proof.
  unfold IsContact.
  destruct (Nat.ltb_spec 13 (String.length (JID c))) as [H|H];
    [simpl | reflexivity].
  apply String.eqb_neq. intros E. apply (f_equal String.length) in E.
  rewrite slice_from_length in E. simpl in E. lia.
Qed.

(** C1, at the JIDs "1234567890@s.whatsapp.net" and
    "123456789-123456789@g.us": ValidateJID accepts both, yet IsContact is
    false on the first and IsGroup is false on the second; indeed both
    classifiers are false on every chat. *)
Theorem C1_classifiers_are_false_on_valid_jids :
  ValidateJID "1234567890@s.whatsapp.net" = nil
  /\ IsContact (mkChat "1234567890@s.whatsapp.net" "" 0%Z) = false
  /\ ValidateJID "123456789-123456789@g.us" = nil
  /\ IsGroup (mkChat "123456789-123456789@g.us" "" 0%Z) = false
  /\ forall c, IsGroup c = false /\ IsContact c = false.
Proof.
  repeat split; auto using IsGroup_false, IsContact_false.
Qed.

End ClassifierFacts.

(** ** INSERT OR REPLACE, ORDER BY, LIMIT/OFFSET *)

Module TableFacts.
Import Database StoreSpec.
Local Open Scope list_scope.

Section Upsert.
Context {A K : Type} (key : A -> K) (same : A -> A -> bool).
Hypothesis same_spec : forall a b, same a b = true <-> key a = key b.

Let others (row : A) := fun r => negb (same r row).

Lemma same_false a b : same a b = false <-> key a <> key b.
Proof.
  rewrite <- same_spec. destruct (same a b); split; congruence.
Qed.

Lemma filter_keys_NoDup (p : A -> bool) table :
  NoDup (map key table) -> NoDup (map key (filter p table)).
Proof.
  induction table as [|a l IH]; simpl; intros H; [constructor|].
  inversion H as [|? ? Hnin Hnd]; subst.
  destruct (p a); simpl; [constructor|]; auto.
  intros Hin. apply Hnin. apply in_map_iff in Hin as (x & E & Hx).
  apply filter_In in Hx as [Hx _]. apply in_map_iff. eauto.
Qed.

Lemma others_keys row table k :
  In k (map key (filter (others row) table))
  <-> In k (map key table) /\ k <> key row.
Proof.
  rewrite !in_map_iff. split.
  - intros (x & <- & Hx). apply filter_In in Hx as [Hx Hs].
    unfold others in Hs. apply negb_true_iff, same_false in Hs. eauto.
  - intros [(x & <- & Hx) Hne]. exists x. split; [reflexivity|].
    apply filter_In. split; [exact Hx|].
    unfold others. now apply negb_true_iff, same_false.
Qed.

Lemma upsert_keys row table k :
  In k (map key (insert_or_replace same row table))
  <-> k = key row \/ (In k (map key table) /\ k <> key row).
Proof.
  unfold insert_or_replace. rewrite map_app, in_app_iff.
  fold (others row). rewrite others_keys. simpl. intuition congruence.
Qed.

Lemma upsert_NoDup row table :
  NoDup (map key table) ->
  NoDup (map key (insert_or_replace same row table)).
Proof.
  intros H. unfold insert_or_replace. rewrite map_app. apply NoDup_app.
  - now apply filter_keys_NoDup.
  - simpl. constructor; [intros [] | constructor].
  - intros k Hk [<-|[]]. fold (others row) in Hk.
    apply others_keys in Hk as [_ Hne]. congruence.
Qed.

(** After the write exactly one row carries the key: the new one. *)
Lemma upsert_rows row table :
  filter (fun r => same r row) (insert_or_replace same row table) = [row].
Proof.
  unfold insert_or_replace. rewrite filter_app. simpl.
  assert (Hrefl : same row row = true) by now apply same_spec.
  rewrite Hrefl.
  replace (filter _ (filter _ table)) with (@List.nil A); [reflexivity|].
  induction table as [|a l IH]; simpl; [reflexivity|].
  destruct (same a row) eqn:E; simpl; [exact IH|]. now rewrite E.
Qed.

Lemma others_all row table :
  ~ In (key row) (map key table) -> filter (others row) table = table.
Proof.
  induction table as [|a l IH]; simpl; intros H; [reflexivity|].
  unfold others at 1.
  destruct (same a row) eqn:E; simpl.
  - apply same_spec in E. exfalso. apply H. now left.
  - f_equal. apply IH. intros Hin. apply H. now right.
Qed.

(** A write on a key that is present does not change the row count. *)
Lemma upsert_length row table :
  NoDup (map key table) -> In (key row) (map key table) ->
  List.length (insert_or_replace same row table) = List.length table.
Proof.
  intros Hnd Hin. unfold insert_or_replace. rewrite length_app. simpl.
  fold (others row).
  induction table as [|a l IH]; simpl in *; [contradiction|].
  inversion Hnd as [|? ? Hnin Hnd']; subst.
  unfold others at 1. destruct (same a row) eqn:E; simpl.
  - apply same_spec in E. rewrite E in Hnin.
    rewrite others_all by exact Hnin. lia.
  - apply same_false in E. destruct Hin as [Hin|Hin]; [congruence|].
    rewrite IH by assumption. reflexivity.
Qed.

(** A write on a key that is absent adds one row. *)
Lemma upsert_length_new row table :
  ~ In (key row) (map key table) ->
  List.length (insert_or_replace same row table) = S (List.length table).
Proof.
  intros Hnin. unfold insert_or_replace. fold (others row).
  rewrite others_all by exact Hnin. rewrite length_app. simpl. lia.
Qed.

End Upsert.

Lemma same_jid_spec a b : same_jid a b = true <-> JID a = JID b.
Proof. apply String.eqb_eq. Qed.

Lemma same_msg_key_spec a b :
  same_msg_key a b = true <-> msg_key a = msg_key b.
Proof.
  unfold same_msg_key, msg_key.
  rewrite andb_true_iff, !String.eqb_eq. split.
  - intros [-> ->]. reflexivity.
  - intros E. now injection E.
Qed.

Lemma chat_exists_spec s jid :
  chat_exists s jid = true <-> In jid (map JID (chats s)).
Proof.
  unfold chat_exists. rewrite existsb_exists, in_map_iff.
  split; intros (c & H1 & H2).
  - apply String.eqb_eq in H2. eauto.
  - exists c. split; [exact H2 | now apply String.eqb_eq].
Qed.

Section OrderBy.
Context {A : Type} (key : A -> Time).

Lemma insert_desc_perm x l : Permutation (insert_desc key x l) (x :: l).
Proof.
  induction l as [|y l IH]; simpl; [reflexivity|].
  destruct (key y <=? key x)%string; [reflexivity|].
  rewrite IH. apply perm_swap.
Qed.

Lemma order_by_desc_perm l : Permutation (order_by_desc key l) l.
Proof.
  induction l as [|x l IH]; simpl; [reflexivity|].
  rewrite insert_desc_perm. now constructor.
Qed.

Lemma insert_desc_sorted x l :
  StronglySorted (desc key) l ->
  StronglySorted (desc key) (insert_desc key x l).
Proof.
  induction l as [|y l IH]; simpl; intros Hs.
  - repeat constructor.
  - apply StronglySorted_inv in Hs as [Hs Hy].
    destruct (key y <=? key x)%string eqn:Hle.
    + constructor; [now constructor|].
      constructor; [exact Hle|].
      eapply Forall_impl; [|exact Hy]. unfold desc. intros z Hz.
      now apply (text_leb_trans _ (key y)).
    + constructor; [now apply IH|].
      apply Forall_forall. intros z Hz.
      apply (Permutation_in _ (insert_desc_perm x l)) in Hz.
      destruct Hz as [<-|Hz].
      * unfold desc. destruct (String.leb_total (key x) (key y)); congruence.
      * rewrite Forall_forall in Hy. now apply Hy.
Qed.

Lemma order_by_desc_sorted l : StronglySorted (desc key) (order_by_desc key l).
Proof.
  induction l as [|x l IH]; simpl; [constructor|].
  now apply insert_desc_sorted.
Qed.

End OrderBy.

Section Window.
Context {A : Type}.

Lemma firstn_then_next (n m : nat) (l : list A) :
  firstn n l ++ firstn m (skipn n l) = firstn (n + m) l.
Proof.
  revert l. induction n as [|n IH]; intros [|x l]; simpl;
    try reflexivity.
  - now rewrite firstn_nil.
  - now rewrite IH.
Qed.

Lemma limit_offset_segment limit offset (l : list A) :
  exists before after, l = before ++ limit_offset limit offset l ++ after.
Proof.
  unfold limit_offset. exists (firstn (Z.to_nat offset) l).
  destruct (limit <? 0)%Z.
  - exists []. now rewrite app_nil_r, firstn_skipn.
  - exists (skipn (Z.to_nat limit) (skipn (Z.to_nat offset) l)).
    now rewrite !firstn_skipn.
Qed.

Lemma segment_sorted (R : A -> A -> Prop) (before seg after : list A) :
  StronglySorted R (before ++ seg ++ after) -> StronglySorted R seg.
Proof.
  induction before as [|x b IH]; simpl.
  - induction seg as [|y seg IHs]; simpl; intros H; [constructor|].
    apply StronglySorted_inv in H as [H Hy].
    constructor; [now apply IHs|].
    apply Forall_app in Hy. tauto.
  - intros H. apply StronglySorted_inv in H as [H _]. now apply IH.
Qed.

Lemma limit_offset_sorted (R : A -> A -> Prop) limit offset (l : list A) :
  StronglySorted R l -> StronglySorted R (limit_offset limit offset l).
Proof.
  intros H.
  destruct (limit_offset_segment limit offset l) as (b & a & E).
  rewrite E in H. now apply segment_sorted in H.
Qed.

End Window.

End TableFacts.

(** ** The store *)

Module StoreFacts.
Import Database StoreSpec TableFacts.
Local Open Scope list_scope.
Local Open Scope Z_scope.

(** The four ways through StoreMessage. *)
Lemma not_empty_guard msg :
  Content msg <> ""%string \/ MediaType msg <> ""%string ->
  ((Content msg =? "") && (MediaType msg =? ""))%string = false.
Proof.
  intros Hne. apply andb_false_iff.
  destruct Hne as [H|H]; [left | right]; now apply String.eqb_neq.
Qed.

Lemma fits_int64_spec msg :
  fits_int64 msg <-> high_bit_set (FileLength msg) = false.
Proof.
  unfold fits_int64, high_bit_set. rewrite N.leb_gt. reflexivity.
Qed.

Lemma StoreMessage_skipped s msg :
  ((Content msg =? "") && (MediaType msg =? ""))%string = true ->
  StoreMessage s msg = (nil, s).
Proof. intros Hg. unfold StoreMessage. now rewrite Hg. Qed.

Lemma StoreMessage_unconverted s msg :
  ((Content msg =? "") && (MediaType msg =? ""))%string = false ->
  high_bit_set (FileLength msg) = true ->
  StoreMessage s msg = (Errorf conversion_error, s).
Proof. intros Hg Hh. unfold StoreMessage. now rewrite Hg, Hh. Qed.

Lemma StoreMessage_refused s msg :
  ((Content msg =? "") && (MediaType msg =? ""))%string = false ->
  high_bit_set (FileLength msg) = false ->
  chat_exists s (ChatJID msg) = false ->
  StoreMessage s msg = (Errorf "FOREIGN KEY constraint failed", s).
Proof. intros Hg Hh Hex. unfold StoreMessage. now rewrite Hg, Hh, Hex. Qed.

Lemma StoreMessage_written s msg :
  ((Content msg =? "") && (MediaType msg =? ""))%string = false ->
  high_bit_set (FileLength msg) = false ->
  chat_exists s (ChatJID msg) = true ->
  StoreMessage s msg
  = (nil, {| chats := chats s;
             messages := insert_or_replace same_msg_key msg (messages s);
             writes := S (writes s) |}).
Proof. intros Hg Hh Hex. unfold StoreMessage. now rewrite Hg, Hh, Hex. Qed.

(** Either nothing is written, or the chat exists and the row is written. *)
Lemma StoreMessage_outcome s msg :
  snd (StoreMessage s msg) = s
  \/ (chat_exists s (ChatJID msg) = true
      /\ StoreMessage s msg
         = (nil, {| chats := chats s;
                    messages := insert_or_replace same_msg_key msg (messages s);
                    writes := S (writes s) |})).
Proof.
  unfold StoreMessage.
  destruct ((Content msg =? "") && (MediaType msg =? ""))%string;
    [now left|].
  destruct (high_bit_set (FileLength msg)); [now left|].
  destruct (chat_exists s (ChatJID msg)); [now right | now left].
Qed.

Lemma NewStore_ok : store_ok NewStore.
Proof.
  repeat split; simpl; try constructor. intros m [].
Qed.

Lemma StoreChat_ok s chat : store_ok s -> store_ok (snd (StoreChat s chat)).
Proof.
  intros [[Hc Hm] Hfk]. repeat split; simpl.
  - now apply (upsert_NoDup JID same_jid same_jid_spec).
  - exact Hm.
  - intros m Hin. apply (upsert_keys JID same_jid same_jid_spec).
    destruct (string_dec (ChatJID m) (JID chat)) as [E|N]; [now left|].
    right. split; [now apply Hfk | exact N].
Qed.

Lemma StoreMessage_ok s msg :
  store_ok s -> store_ok (snd (StoreMessage s msg)).
Proof.
  intros Hok.
  destruct (StoreMessage_outcome s msg) as [->|[Hex ->]]; [exact Hok|].
  destruct Hok as [[Hc Hm] Hfk]. repeat split; simpl.
  - exact Hc.
  - now apply (upsert_NoDup msg_key same_msg_key same_msg_key_spec).
  - intros m Hin. unfold insert_or_replace in Hin.
    apply in_app_iff in Hin as [Hin|[<-|[]]].
    + apply filter_In in Hin as [Hin _]. now apply Hfk.
    + now apply chat_exists_spec.
Qed.

Lemma run_ok ops : forall s, store_ok s -> store_ok (run ops s).
Proof.
  induction ops as [|o ops IH]; intros s Hok; simpl; [exact Hok|].
  apply IH. destruct o; [now apply StoreChat_ok | now apply StoreMessage_ok].
Qed.

(** C4: StoreMessage on a message with empty content and empty media type
    returns nil and hands back the store as it was: both tables and the
    count of rows written are unchanged, hence so is every listing. *)
Theorem C4_empty_message_is_not_written s msg :
  Content msg = "" -> MediaType msg = "" ->
  StoreMessage s msg = (nil, s)
  /\ messages (snd (StoreMessage s msg)) = messages s
  /\ writes (snd (StoreMessage s msg)) = writes s
  /\ forall chatJID limit offset,
       GetMessages (snd (StoreMessage s msg)) chatJID limit offset
       = GetMessages s chatJID limit offset.
Proof.
  intros Hc Hm. unfold StoreMessage. rewrite Hc, Hm. simpl. auto.
Qed.

Lemma C4_empty_message_is_not_written_witness :
  StoreMessage Examples.store1 (mkText "m2" "1@s.whatsapp.net" "" "" 1)
  = (nil, Examples.store1).
Proof.
  apply (C4_empty_message_is_not_written Examples.store1
           (mkText "m2" "1@s.whatsapp.net" "" "" 1)); reflexivity.
Defined.

(** C3 as stated fails: on the empty store, a message with empty content
    and empty media type that names the unknown chat
    "nobody@s.whatsapp.net" is answered with nil, not with an error. *)
Lemma C3_unknown_chat_empty_message_succeeds :
  ~ (forall s msg,
        ~ In (ChatJID msg) (map JID (chats s)) ->
        fst (StoreMessage s msg) <> nil).
Proof.
  intros H.
  apply (H NewStore (mkText "m1" "nobody@s.whatsapp.net" "" "" 0)).
  - intros [].
  - reflexivity.
Qed.

(** C3, amended: a message with non-empty content or non-empty media type
    whose chat_jid is the jid of no row of chats makes StoreMessage fail,
    and the store is unchanged.  The error is the engine's foreign-key
    error when the file length fits an int64; when it does not (2^63 and
    above), the statement is not run and the error is that of the argument
    conversion. *)
Theorem C3_unknown_chat_is_refused s msg :
  Content msg <> "" \/ MediaType msg <> "" ->
  ~ In (ChatJID msg) (map JID (chats s)) ->
  (fits_int64 msg ->
   StoreMessage s msg = (Errorf "FOREIGN KEY constraint failed", s))
  /\ (~ fits_int64 msg ->
      StoreMessage s msg = (Errorf conversion_error, s))
  /\ fst (StoreMessage s msg) <> nil
  /\ messages (snd (StoreMessage s msg)) = messages s.
Proof.
  intros Hne Hnin. apply not_empty_guard in Hne.
  assert (Hex : chat_exists s (ChatJID msg) = false).
  { destruct (chat_exists s (ChatJID msg)) eqn:Hex; [|reflexivity].
    apply chat_exists_spec in Hex. contradiction. }
  rewrite fits_int64_spec.
  destruct (high_bit_set (FileLength msg)) eqn:Hh.
  - rewrite (StoreMessage_unconverted s msg Hne Hh).
    split; [discriminate|]. split; [reflexivity|].
    split; [discriminate | reflexivity].
  - rewrite (StoreMessage_refused s msg Hne Hh Hex).
    split; [reflexivity|]. split; [intros H; now contradiction H|].
    split; [discriminate | reflexivity].
Qed.

Lemma C3_unknown_chat_is_refused_witness :
  fst (StoreMessage NewStore (mkText "m1" "nobody@s.whatsapp.net" "" "hi" 0))
  = Errorf "FOREIGN KEY constraint failed"
  /\ fst (StoreMessage NewStore
            (Examples.too_long "m2" "nobody@s.whatsapp.net"))
     = Errorf conversion_error.
Proof.
  split.
  - destruct (C3_unknown_chat_is_refused NewStore
                (mkText "m1" "nobody@s.whatsapp.net" "" "hi" 0)) as [H _].
    + left. discriminate.
    + intros [].
    + rewrite H; [reflexivity|]. unfold fits_int64. simpl. lia.
  - destruct (C3_unknown_chat_is_refused NewStore
                (Examples.too_long "m2" "nobody@s.whatsapp.net"))
      as (_ & H & _).
    + left. discriminate.
    + intros [].
    + rewrite H; [reflexivity|]. unfold fits_int64. simpl. lia.
Defined.

(** C6: with no write in between, the page of N rows at offset 0 followed
    by the page of M rows at offset N is the page of N+M rows at offset 0. *)
Theorem C6_pages_compose s chatJID (N M : Z) :
  (0 <= N)%Z -> (0 <= M)%Z ->
  fst (GetMessages s chatJID N 0) ++ fst (GetMessages s chatJID M N)
  = fst (GetMessages s chatJID (N + M) 0)
  /\ snd (GetMessages s chatJID N 0) = nil
  /\ snd (GetMessages s chatJID M N) = nil
  /\ snd (GetMessages s chatJID (N + M) 0) = nil.
Proof.
  intros HN HM. split; [|now repeat split].
  unfold GetMessages, limit_offset. simpl fst.
  destruct (Z.ltb_spec N 0) as [?|_]; [lia|].
  destruct (Z.ltb_spec M 0) as [?|_]; [lia|].
  destruct (Z.ltb_spec (N + M) 0) as [?|_]; [lia|].
  change (Z.to_nat 0) with 0%nat. simpl skipn.
  rewrite Z2Nat.inj_add by assumption.
  apply firstn_then_next.
Qed.

Lemma C6_pages_compose_witness :
  map ID (fst (GetMessages Examples.store3 "1@s.whatsapp.net" 1 0)
          ++ fst (GetMessages Examples.store3 "1@s.whatsapp.net" 1 1))
  = ["m2"; "m3"]%string.
Proof.
  rewrite (proj1 (C6_pages_compose Examples.store3 "1@s.whatsapp.net" 1 1
                    ltac:(lia) ltac:(lia))).
  reflexivity.
Defined.

Lemma StoreChat_keys s chat :
  key_invariant s -> key_invariant (snd (StoreChat s chat)).
Proof.
  intros [Hc Hm]. split; simpl; [|exact Hm].
  now apply (upsert_NoDup JID same_jid same_jid_spec).
Qed.

Lemma StoreMessage_keys s msg :
  key_invariant s -> key_invariant (snd (StoreMessage s msg)).
Proof.
  intros Hk.
  destruct (StoreMessage_outcome s msg) as [->|[_ ->]]; [exact Hk|].
  destruct Hk as [Hc Hm]. split; simpl; [exact Hc|].
  now apply (upsert_NoDup msg_key same_msg_key same_msg_key_spec).
Qed.

Lemma run_keys ops : forall s, key_invariant s -> key_invariant (run ops s).
Proof.
  induction ops as [|o ops IH]; intros s Hk; simpl; [exact Hk|].
  apply IH. destruct o; [now apply StoreChat_keys | now apply StoreMessage_keys].
Qed.

(** A message row that is present has its chat row present. *)
Lemma present_key_has_chat s msg :
  fk_invariant s -> In (msg_key msg) (map msg_key (messages s)) ->
  chat_exists s (ChatJID msg) = true.
Proof.
  intros Hfk Hin. apply in_map_iff in Hin as (m0 & E & Hm0).
  apply chat_exists_spec. injection E as _ <-. now apply Hfk.
Qed.

(** C5 as stated fails: after StoreChat "1@s.whatsapp.net" and StoreMessage
    of ("m1", "1@s.whatsapp.net") with content "hi", StoreMessage of the
    same key with empty content and empty media type does not replace the
    prior row: the row with that key is still the one with content "hi". *)
Lemma C5_empty_message_does_not_replace :
  ~ (forall ops msg,
        In (msg_key msg) (map msg_key (messages (run ops NewStore))) ->
        rows_with_key (snd (StoreMessage (run ops NewStore) msg)) msg = [msg]).
Proof.
  intros H.
  specialize (H [OpStoreChat (mkChat "1@s.whatsapp.net" "A" 0);
                 OpStoreMessage (mkText "m1" "1@s.whatsapp.net" "" "hi" 0)]
                (mkText "m1" "1@s.whatsapp.net" "" "" 0)
                (or_introl eq_refl)).
  vm_compute in H. discriminate H.
Qed.

(** C5, amended: every sequence of StoreChat and StoreMessage calls keeps
    jid unique in chats and (id, chat_jid) unique in messages (and every
    message row attached to a chat row).  StoreChat leaves exactly one row
    with the given jid, the new one, and on a jid that was present the row
    count of chats does not change.  StoreMessage with non-empty content or
    non-empty media type and a file length that fits an int64, on an
    (id, chat_jid) that was present, succeeds, leaves exactly one row with
    that key, the new one, and does not change the row count of messages.
    With empty content and empty media type it writes nothing; with content
    or a media type and a file length of 2^63 or more it fails in the
    argument conversion and writes nothing either. *)
Theorem C5_primary_keys_stay_unique :
  (forall ops, store_ok (run ops NewStore))
  /\ (forall ops s, key_invariant s -> key_invariant (run ops s))
  /\ (forall s chat,
        fst (StoreChat s chat) = nil
        /\ rows_with_jid (snd (StoreChat s chat)) (JID chat) = [chat]
        /\ (key_invariant s -> In (JID chat) (map JID (chats s)) ->
            List.length (chats (snd (StoreChat s chat)))
            = List.length (chats s)))
  /\ (forall s msg,
        store_ok s ->
        Content msg <> ""%string \/ MediaType msg <> ""%string ->
        fits_int64 msg ->
        In (msg_key msg) (map msg_key (messages s)) ->
        fst (StoreMessage s msg) = nil
        /\ rows_with_key (snd (StoreMessage s msg)) msg = [msg]
        /\ List.length (messages (snd (StoreMessage s msg)))
           = List.length (messages s))
  /\ (forall s msg,
        Content msg = ""%string -> MediaType msg = ""%string ->
        StoreMessage s msg = (nil, s))
  /\ (forall s msg,
        Content msg <> ""%string \/ MediaType msg <> ""%string ->
        ~ fits_int64 msg ->
        StoreMessage s msg = (Errorf conversion_error, s)).
Proof.
  split; [|split; [|split; [|split; [|split]]]].
  - intros ops. apply run_ok, NewStore_ok.
  - intros ops s. apply run_keys.
  - intros s chat. split; [reflexivity|]. split.
    + apply (upsert_rows JID same_jid same_jid_spec).
    + intros [Hc _] Hin. simpl.
      now apply (upsert_length JID same_jid same_jid_spec).
  - intros s msg [[Hc Hm] Hfk] Hne Hfit Hin.
    rewrite (StoreMessage_written s msg (not_empty_guard msg Hne)
               (proj1 (fits_int64_spec msg) Hfit)
               (present_key_has_chat s msg Hfk Hin)).
    simpl. split; [reflexivity|]. split.
    + apply (upsert_rows msg_key same_msg_key same_msg_key_spec).
    + now apply (upsert_length msg_key same_msg_key same_msg_key_spec).
  - intros s msg Hc Hm. unfold StoreMessage. now rewrite Hc, Hm.
  - intros s msg Hne Hbig. apply StoreMessage_unconverted.
    + now apply not_empty_guard.
    + destruct (high_bit_set (FileLength msg)) eqn:Hh; [reflexivity|].
      exfalso. apply Hbig. now apply fits_int64_spec.
Qed.

Lemma C5_primary_keys_stay_unique_witness :
  rows_with_key
    (snd (StoreMessage Examples.store1
            (mkText "m1" "1@s.whatsapp.net" "" "hello" 7)))
    (mkText "m1" "1@s.whatsapp.net" "" "hello" 7)
  = [mkText "m1" "1@s.whatsapp.net" "" "hello" 7]
  /\ List.length
       (messages (snd (StoreMessage Examples.store1
                         (mkText "m1" "1@s.whatsapp.net" "" "hello" 7))))
     = 1%nat
  /\ StoreMessage Examples.store1 (Examples.too_long "m1" "1@s.whatsapp.net")
     = (Errorf conversion_error, Examples.store1).
Proof.
  destruct C5_primary_keys_stay_unique as (Hreach & _ & _ & Hmsg & _ & Hbig).
  destruct (Hmsg Examples.store1
              (mkText "m1" "1@s.whatsapp.net" "" "hello" 7))
    as (_ & Hrows & Hlen).
  - apply Hreach.
  - left. discriminate.
  - unfold fits_int64. simpl. lia.
  - left. reflexivity.
  - split; [exact Hrows|]. split; [rewrite Hlen; reflexivity|].
    apply Hbig; [left; discriminate|].
    unfold fits_int64. simpl. lia.
Defined.

(** C2 as stated fails: no order on (id, chat_jid) keys governs tied rows.
    With chat "1@s.whatsapp.net" and two messages "a" and "b" of one
    timestamp, the store written in the order a, b lists [a; b] and the
    store written in the order b, a lists [b; a]. *)
Lemma C2_tied_rows_not_ordered_by_key :
  ~ exists before : string * string -> string * string -> Prop,
      (forall k1 k2, before k1 k2 -> ~ before k2 k1)
      /\ forall ops chatJID limit offset pre r1 mid r2 post,
           fst (GetMessages (run ops NewStore) chatJID limit offset)
           = pre ++ r1 :: mid ++ r2 :: post ->
           Timestamp r1 = Timestamp r2 ->
           before (msg_key r1) (msg_key r2).
Proof.
  intros (before & Hasym & H).
  pose (jid := "1@s.whatsapp.net"%string).
  pose (c := OpStoreChat (mkChat jid "A" 0)).
  pose (a := mkText "a" jid "" "first" 5).
  pose (b := mkText "b" jid "" "second" 5).
  assert (Hab : before (msg_key a) (msg_key b)).
  { apply (H [c; OpStoreMessage a; OpStoreMessage b] jid 10 0 [] a [] b []);
      reflexivity. }
  assert (Hba : before (msg_key b) (msg_key a)).
  { apply (H [c; OpStoreMessage b; OpStoreMessage a] jid 10 0 [] b [] a []);
      reflexivity. }
  exact (Hasym _ _ Hab Hba).
Qed.

(** The same for chats, where the engine reads the index backwards: of two
    chats of one timestamp the one written last is listed first. *)
Example tied_chats_latest_written_first :
  map JID (fst (GetChats (run [OpStoreChat (mkChat "a@s.whatsapp.net" "A" 5);
                               OpStoreChat (mkChat "b@s.whatsapp.net" "B" 5)]
                              NewStore) 10 0))
  = ["b@s.whatsapp.net"; "a@s.whatsapp.net"]%string
  /\ map JID (fst (GetChats (run [OpStoreChat (mkChat "b@s.whatsapp.net" "B" 5);
                                  OpStoreChat (mkChat "a@s.whatsapp.net" "A" 5)]
                                 NewStore) 10 0))
     = ["a@s.whatsapp.net"; "b@s.whatsapp.net"]%string.
Proof. split; reflexivity. Qed.

Lemma unlimited {A : Type} (l : list A) : limit_offset (-1) 0 l = l.
Proof. reflexivity. Qed.

(** C2, amended: GetMessages and GetChats list rows in non-increasing
    order of the stored timestamp and in no order beyond that: the queries
    name no second sort key, and rows of one timestamp come as the engine's
    scan delivers them, not by their keys.  The complete listing (no limit,
    offset 0) is a rearrangement of the selected rows, every page is a
    contiguous run of it, and a listing depends on the rows of the table
    and their order alone, so that the same call on the same state gives
    the same sequence. *)
Theorem C2_listings_follow_timestamp_only s chatJID limit offset :
  StronglySorted (desc Timestamp) (fst (GetMessages s chatJID limit offset))
  /\ StronglySorted (desc LastMessageTime) (fst (GetChats s limit offset))
  /\ Permutation (fst (GetMessages s chatJID (-1) 0))
                 (filter (fun m => ChatJID m =? chatJID)%string (messages s))
  /\ Permutation (fst (GetChats s (-1) 0)) (chats s)
  /\ (exists before after,
        fst (GetMessages s chatJID (-1) 0)
        = before ++ fst (GetMessages s chatJID limit offset) ++ after)
  /\ (exists before after,
        fst (GetChats s (-1) 0)
        = before ++ fst (GetChats s limit offset) ++ after)
  /\ (forall s',
        chats s' = chats s -> messages s' = messages s ->
        GetMessages s' chatJID limit offset = GetMessages s chatJID limit offset
        /\ GetChats s' limit offset = GetChats s limit offset).
Proof.
  unfold GetMessages, GetChats. simpl fst. rewrite !unlimited.
  split; [|split; [|split; [|split; [|split; [|split]]]]].
  - apply limit_offset_sorted, order_by_desc_sorted.
  - apply limit_offset_sorted, order_by_desc_sorted.
  - apply order_by_desc_perm.
  - rewrite order_by_desc_perm. symmetry. apply Permutation_rev.
  - apply limit_offset_segment.
  - apply limit_offset_segment.
  - intros s' Hc Hm. now rewrite Hc, Hm.
Qed.

Lemma C2_listings_follow_timestamp_only_witness :
  StronglySorted (desc Timestamp)
    (fst (GetMessages Examples.tie_store "1@s.whatsapp.net" 2 0))
  /\ Permutation
       (fst (GetMessages Examples.tie_store "1@s.whatsapp.net" (-1) 0))
       (messages Examples.tie_store)
  /\ map Timestamp
         (fst (GetMessages Examples.tie_store "1@s.whatsapp.net" 2 0))
     = [clock 5; clock 5].
Proof.
  destruct (C2_listings_follow_timestamp_only
              Examples.tie_store "1@s.whatsapp.net" 2 0)
    as (Hsorted & _ & Hperm & _).
  split; [exact Hsorted|]. split; [exact Hperm | reflexivity].
Defined.

End StoreFacts.

(** ** Further properties of the store *)

Module StoreExtras.
Import Database StoreSpec TableFacts StoreFacts.
Local Open Scope list_scope.
Local Open Scope Z_scope.

Lemma filter_perm {A : Type} (p : A -> bool) (l l' : list A) :
  Permutation l l' -> Permutation (filter p l) (filter p l').
Proof.
  induction 1 as [|x l l' _ IH|x y l|l l' l'' _ IH1 _ IH2]; simpl.
  - constructor.
  - destruct (p x); [now constructor | exact IH].
  - destruct (p x), (p y); try reflexivity. apply perm_swap.
  - now transitivity (filter p l').
Qed.

Lemma filter_twice {A : Type} (p q : A -> bool) (l : list A) :
  filter q (filter p l) = filter (fun a => p a && q a) l.
Proof.
  induction l as [|a l IH]; simpl; [reflexivity|].
  destruct (p a); simpl; [destruct (q a)|]; now rewrite IH.
Qed.

(** A complete listing holds, of the rows that satisfy [p], exactly those
    of the table, when there is only one. *)
Lemma listing_single {A : Type} (key : A -> Time) (p : A -> bool) l a :
  filter p l = [a] -> filter p (order_by_desc key l) = [a].
Proof.
  intros H. apply Permutation_length_1_inv. rewrite <- H.
  apply filter_perm. symmetry. apply order_by_desc_perm.
Qed.

(** X1: StoreChat never fails, and the complete listing of GetChats afterwards
    holds exactly one row with the jid stored, the row stored. *)
Theorem StoreChat_then_GetChats s chat :
  fst (StoreChat s chat) = nil
  /\ snd (GetChats (snd (StoreChat s chat)) (-1) 0) = nil
  /\ filter (fun c => JID c =? JID chat)%string
            (fst (GetChats (snd (StoreChat s chat)) (-1) 0))
     = [chat].
Proof.
  repeat split. unfold GetChats. simpl. rewrite unlimited.
  apply listing_single. rewrite filter_rev.
  change (insert_or_replace same_jid chat (chats s))
    with (chats (snd (StoreChat s chat))).
  replace (filter (fun c => JID c =? JID chat)%string
                  (chats (snd (StoreChat s chat))))
    with [chat]; [reflexivity|].
  symmetry. apply (upsert_rows JID same_jid same_jid_spec).
Qed.

(** X2: A message with content or a media type and a file length below
    2^63, stored for a chat that has a row, is accepted, and the complete
    listing of its chat afterwards holds exactly one row with its id, the
    row stored. *)
Theorem StoreMessage_then_GetMessages s msg :
  Content msg <> ""%string \/ MediaType msg <> ""%string ->
  fits_int64 msg ->
  In (ChatJID msg) (map JID (chats s)) ->
  fst (StoreMessage s msg) = nil
  /\ snd (GetMessages (snd (StoreMessage s msg)) (ChatJID msg) (-1) 0) = nil
  /\ filter (fun m => ID m =? ID msg)%string
            (fst (GetMessages (snd (StoreMessage s msg)) (ChatJID msg) (-1) 0))
     = [msg].
Proof.
  intros Hne Hfit Hin.
  apply not_empty_guard in Hne. apply fits_int64_spec in Hfit.
  apply chat_exists_spec in Hin.
  rewrite (StoreMessage_written s msg Hne Hfit Hin).
  repeat split. unfold GetMessages. simpl. rewrite unlimited.
  apply listing_single. rewrite filter_twice.
  rewrite (filter_ext _ (fun r => same_msg_key r msg)).
  - apply (upsert_rows msg_key same_msg_key same_msg_key_spec).
  - intros m. unfold same_msg_key. apply andb_comm.
Qed.

Lemma StoreMessage_then_GetMessages_witness :
  filter (fun m => ID m =? "m9")%string
         (fst (GetMessages
                 (snd (StoreMessage Examples.store3
                         (mkText "m9" "1@s.whatsapp.net" "" "z" 1)))
                 "1@s.whatsapp.net" (-1) 0))
  = [mkText "m9" "1@s.whatsapp.net" "" "z" 1].
Proof.
  apply (StoreMessage_then_GetMessages Examples.store3
           (mkText "m9" "1@s.whatsapp.net" "" "z" 1)).
  - left. discriminate.
  - unfold fits_int64. simpl. lia.
  - left. reflexivity.
Defined.

(** X3: The two halves of recording an inbound event: StoreMessage right after
    StoreChat of the chat it names never returns the foreign-key error, from
    any store, and returns nil when the file length is below 2^63; on a new
    store the listing of the chat is then exactly the message, if it has
    content or a media type. *)
Theorem StoreChat_then_StoreMessage s chat msg :
  ChatJID msg = JID chat ->
  fst (StoreMessage (snd (StoreChat s chat)) msg)
  <> Errorf "FOREIGN KEY constraint failed"
  /\ (fits_int64 msg ->
      fst (StoreMessage (snd (StoreChat s chat)) msg) = nil)
  /\ (fits_int64 msg ->
      Content msg <> ""%string \/ MediaType msg <> ""%string ->
      fst (GetMessages
             (snd (StoreMessage (snd (StoreChat NewStore chat)) msg))
             (JID chat) (-1) 0)
      = [msg]).
Proof.
  intros E.
  assert (Hex : forall s0, chat_exists (snd (StoreChat s0 chat)) (ChatJID msg)
                           = true).
  { intros s0. apply chat_exists_spec. simpl.
    apply (upsert_keys JID same_jid same_jid_spec). now left. }
  split; [|split].
  - unfold StoreMessage. rewrite Hex.
    destruct (_ && _)%bool; [discriminate|].
    destruct (high_bit_set (FileLength msg)); discriminate.
  - intros Hfit. apply fits_int64_spec in Hfit.
    unfold StoreMessage. rewrite Hex, Hfit. now destruct (_ && _)%bool.
  - intros Hfit Hne.
    apply not_empty_guard in Hne. apply fits_int64_spec in Hfit.
    rewrite (StoreMessage_written _ msg Hne Hfit (Hex NewStore)).
    unfold GetMessages.
    cbn [fst snd messages StoreChat NewStore insert_or_replace filter app].
    rewrite E, String.eqb_refl. reflexivity.
Qed.

Lemma StoreChat_then_StoreMessage_witness :
  fst (GetMessages
         (snd (StoreMessage (snd (StoreChat NewStore Examples.chat1))
                 Examples.hi))
         "1@s.whatsapp.net" (-1) 0)
  = [Examples.hi].
Proof.
  apply (StoreChat_then_StoreMessage NewStore Examples.chat1 Examples.hi).
  - reflexivity.
  - unfold fits_int64. simpl. lia.
  - left. discriminate.
Defined.

(** X4: StoreMessage touches one chat only: the listings of every other chat,
    page by page, and the listing of chats are what they were. *)
Theorem StoreMessage_other_chats_unchanged s msg :
  (forall chatJID limit offset,
      chatJID <> ChatJID msg ->
      GetMessages (snd (StoreMessage s msg)) chatJID limit offset
      = GetMessages s chatJID limit offset)
  /\ (forall limit offset,
        GetChats (snd (StoreMessage s msg)) limit offset
        = GetChats s limit offset).
Proof.
  destruct (StoreMessage_outcome s msg) as [->|[_ ->]]; [now split|].
  split; [|reflexivity].
  intros chatJID limit offset Hne. unfold GetMessages. simpl.
  do 2 f_equal. unfold insert_or_replace.
  rewrite filter_app, filter_twice. simpl.
  replace (ChatJID msg =? chatJID)%string with false
    by (symmetry; apply String.eqb_neq; congruence).
  rewrite app_nil_r. f_equal. apply filter_ext_in. intros m _.
  destruct (String.eqb_spec (ChatJID m) chatJID) as [Em|Nm];
    [|apply andb_false_r].
  rewrite andb_true_r. apply negb_true_iff. unfold same_msg_key.
  replace (ChatJID m =? ChatJID msg)%string with false;
    [apply andb_false_r|].
  symmetry. apply String.eqb_neq. congruence.
Qed.

Lemma StoreMessage_other_chats_unchanged_witness :
  GetMessages
    (snd (StoreMessage Examples.two_chats
            (mkText "m1" "2@s.whatsapp.net" "" "x" 9)))
    "1@s.whatsapp.net" 2 0
  = GetMessages Examples.two_chats "1@s.whatsapp.net" 2 0
  /\ fst (StoreMessage Examples.two_chats
            (mkText "m1" "2@s.whatsapp.net" "" "x" 9)) = nil
  /\ fst (GetMessages
            (snd (StoreMessage Examples.two_chats
                    (mkText "m1" "2@s.whatsapp.net" "" "x" 9)))
            "2@s.whatsapp.net" (-1) 0)
     = [mkText "m1" "2@s.whatsapp.net" "" "x" 9].
Proof.
  split; [|split; reflexivity].
  apply (proj1 (StoreMessage_other_chats_unchanged Examples.two_chats
                  (mkText "m1" "2@s.whatsapp.net" "" "x" 9))).
  discriminate.
Defined.

Section LastWrite.
Context {A K : Type} (key : A -> K) (same : A -> A -> bool).
Hypothesis same_spec : forall a b, same a b = true <-> key a = key b.

(** Writing two rows of one key in turn leaves what writing the second
    alone leaves. *)
Lemma upsert_twice r1 r2 table :
  key r1 = key r2 ->
  insert_or_replace same r2 (insert_or_replace same r1 table)
  = insert_or_replace same r2 table.
Proof.
  intros E. unfold insert_or_replace. rewrite filter_app, filter_twice.
  simpl. replace (same r1 r2) with true by (symmetry; now apply same_spec).
  simpl. rewrite app_nil_r. f_equal. apply filter_ext. intros a.
  destruct (same a r2) eqn:E2; simpl; [apply andb_false_r|].
  rewrite andb_true_r. apply negb_true_iff.
  apply (same_false key same same_spec).
  apply (same_false key same same_spec) in E2. congruence.
Qed.

End LastWrite.

(** X5: The last write wins, and a repeated write changes nothing: two
    StoreChat calls on one jid leave the tables that the second alone
    leaves; so do two StoreMessage calls on one (id, chat_jid) when the
    second message has content or a media type and a file length below
    2^63, and any StoreMessage call made twice. *)
Theorem last_write_wins s :
  (forall c1 c2,
      JID c1 = JID c2 ->
      chats (snd (StoreChat (snd (StoreChat s c1)) c2))
      = chats (snd (StoreChat s c2)))
  /\ (forall m1 m2,
        msg_key m1 = msg_key m2 ->
        Content m2 <> ""%string \/ MediaType m2 <> ""%string ->
        fits_int64 m2 ->
        messages (snd (StoreMessage (snd (StoreMessage s m1)) m2))
        = messages (snd (StoreMessage s m2)))
  /\ (forall m,
        messages (snd (StoreMessage (snd (StoreMessage s m)) m))
        = messages (snd (StoreMessage s m))).
Proof.
  assert (Hmsg : forall m1 m2,
             msg_key m1 = msg_key m2 ->
             (Content m2 =? "")%string && (MediaType m2 =? "")%string = false ->
             high_bit_set (FileLength m2) = false ->
             messages (snd (StoreMessage (snd (StoreMessage s m1)) m2))
             = messages (snd (StoreMessage s m2))).
  { intros m1 m2 E H2 F2.
    assert (Ec : ChatJID m1 = ChatJID m2) by (now injection E).
    destruct (StoreMessage_outcome s m1) as [->|[Hex ->]]; [reflexivity|].
    rewrite Ec in Hex.
    rewrite (StoreMessage_written s m2), StoreMessage_written;
      try assumption.
    simpl. now apply (upsert_twice msg_key same_msg_key same_msg_key_spec). }
  split; [|split].
  - intros c1 c2 E. simpl.
    now apply (upsert_twice JID same_jid same_jid_spec).
  - intros m1 m2 E Hne Hfit. apply Hmsg; [exact E | |].
    + now apply not_empty_guard.
    + now apply fits_int64_spec.
  - intros m.
    destruct ((Content m =? "") && (MediaType m =? ""))%string eqn:H1.
    + now rewrite !StoreMessage_skipped.
    + destruct (high_bit_set (FileLength m)) eqn:F1.
      * now rewrite !StoreMessage_unconverted.
      * now apply Hmsg.
Qed.

Lemma last_write_wins_witness :
  messages
    (snd (StoreMessage
            (snd (StoreMessage Examples.store1
                    (mkText "m1" "1@s.whatsapp.net" "" "draft" 1)))
            (mkText "m1" "1@s.whatsapp.net" "" "final" 2)))
  = messages
      (snd (StoreMessage Examples.store1
              (mkText "m1" "1@s.whatsapp.net" "" "final" 2))).
Proof.
  apply (proj1 (proj2 (last_write_wins Examples.store1))).
  - reflexivity.
  - left. discriminate.
  - unfold fits_int64. simpl. lia.
Defined.

(** X6: Nothing is ever deleted: a chat jid and a message key that are in the
    store are still in it after any sequence of StoreChat and StoreMessage
    calls. *)
Theorem run_never_deletes ops :
  forall s,
    (forall jid, In jid (map JID (chats s)) ->
                 In jid (map JID (chats (run ops s))))
    /\ (forall k, In k (map msg_key (messages s)) ->
                  In k (map msg_key (messages (run ops s)))).
Proof.
  induction ops as [|o ops IH]; intros s; simpl; [now split|].
  destruct (IH (apply_op s o)) as [IHc IHm].
  split.
  - intros jid Hin. apply IHc. destruct o as [chat|msg]; simpl.
    + apply (upsert_keys JID same_jid same_jid_spec).
      destruct (string_dec jid (JID chat)); [now left | now right].
    + now destruct (StoreMessage_outcome s msg) as [->|[_ ->]].
  - intros k Hin. apply IHm. destruct o as [chat|msg]; simpl; [exact Hin|].
    destruct (StoreMessage_outcome s msg) as [->|[_ ->]]; [exact Hin|]. simpl.
    apply (upsert_keys msg_key same_msg_key same_msg_key_spec).
    destruct k as [i c]. unfold msg_key at 1 3.
    destruct (string_dec i (ID msg)) as [->|Ni];
      destruct (string_dec c (ChatJID msg)) as [->|Nc];
      [now left | right | right | right]; (split; [exact Hin | congruence]).
Qed.

Lemma run_never_deletes_witness :
  In ("m1", "1@s.whatsapp.net")%string
     (map msg_key
        (messages (run [OpStoreChat (mkChat "1@s.whatsapp.net" "B" 9);
                        OpStoreMessage (mkText "m2" "1@s.whatsapp.net" "" "x" 3)]
                       Examples.store1))).
Proof.
  apply (proj2 (run_never_deletes
                  [OpStoreChat (mkChat "1@s.whatsapp.net" "B" 9);
                   OpStoreMessage (mkText "m2" "1@s.whatsapp.net" "" "x" 3)]
                  Examples.store1)).
  left. reflexivity.
Defined.

Section Pages.
Context {A : Type} (key : A -> Time).

Lemma page_in_table limit offset (l : list A) a :
  In a (limit_offset limit offset (order_by_desc key l)) -> In a l.
Proof.
  intros Hin.
  destruct (limit_offset_segment limit offset (order_by_desc key l))
    as (b & c & E).
  apply (Permutation_in a (order_by_desc_perm key l)).
  rewrite E. apply in_or_app. right. apply in_or_app. now left.
Qed.

Lemma page_length limit offset (l : list A) :
  0 <= limit ->
  (List.length (limit_offset limit offset l) <= Z.to_nat limit)%nat.
Proof.
  intros Hl. unfold limit_offset.
  destruct (Z.ltb_spec limit 0) as [?|_]; [lia|]. apply firstn_le_length.
Qed.

Lemma page_NoDup {K : Type} (f : A -> K) limit offset (l : list A) :
  NoDup (map f l) ->
  NoDup (map f (limit_offset limit offset (order_by_desc key l))).
Proof.
  intros Hnd.
  destruct (limit_offset_segment limit offset (order_by_desc key l))
    as (b & c & E).
  assert (H : NoDup (map f (order_by_desc key l))).
  { apply (Permutation_NoDup (l := map f l)); [|exact Hnd].
    apply Permutation_map. symmetry. apply order_by_desc_perm. }
  rewrite E, !map_app in H.
  now apply NoDup_app_remove_l, NoDup_app_remove_r in H.
Qed.

(** A row whose sort key is above all others comes first. *)
Lemma order_by_desc_newest (l : list A) x :
  (forall a, In a l -> (key a <? key x)%string = true) ->
  order_by_desc key (l ++ [x]) = x :: order_by_desc key l.
Proof.
  induction l as [|a l IH]; intros Hlt; simpl; [reflexivity|].
  rewrite IH by (intros b Hb; apply Hlt; now right). simpl.
  now rewrite (text_ltb_not_leb _ _ (Hlt a (or_introl eq_refl))).
Qed.

End Pages.

(** X7: What a page of GetMessages holds: no error; only rows of the table
    that belong to the chat asked for; at most [limit] rows when [limit]
    is not negative; no two rows with one (id, chat_jid) when the table
    has none; and nothing at all for a chat without messages. *)
Theorem GetMessages_page s chatJID limit offset :
  snd (GetMessages s chatJID limit offset) = nil
  /\ (forall m, In m (fst (GetMessages s chatJID limit offset)) ->
                In m (messages s) /\ ChatJID m = chatJID)
  /\ (0 <= limit ->
      (List.length (fst (GetMessages s chatJID limit offset))
       <= Z.to_nat limit)%nat)
  /\ (key_invariant s ->
      NoDup (map msg_key (fst (GetMessages s chatJID limit offset))))
  /\ (~ In chatJID (map ChatJID (messages s)) ->
      fst (GetMessages s chatJID limit offset) = []).
Proof.
  assert (Hrows : forall m, In m (fst (GetMessages s chatJID limit offset)) ->
                            In m (messages s) /\ ChatJID m = chatJID).
  { intros m Hin. apply page_in_table, filter_In in Hin as [Hin Hc].
    split; [exact Hin | now apply String.eqb_eq]. }
  split; [reflexivity|]. split; [exact Hrows|]. split; [|split].
  - apply page_length.
  - intros [_ Hm]. apply page_NoDup.
    now apply (filter_keys_NoDup msg_key).
  - intros Hnone.
    destruct (fst (GetMessages s chatJID limit offset)) as [|m page];
      [reflexivity|].
    destruct (Hrows m (or_introl eq_refl)) as [Hin <-].
    exfalso. apply Hnone. now apply in_map.
Qed.

Lemma GetMessages_page_witness :
  (List.length (fst (GetMessages Examples.store3 "1@s.whatsapp.net" 2 1))
   <= 2)%nat
  /\ fst (GetMessages Examples.store3 "2@s.whatsapp.net" 10 0) = [].
Proof.
  split.
  - apply (GetMessages_page Examples.store3 "1@s.whatsapp.net" 2 1). lia.
  - apply (GetMessages_page Examples.store3 "2@s.whatsapp.net" 10 0).
    simpl. intros [H|[H|[H|[]]]]; discriminate.
Defined.

(** X8: GetChats pages like GetMessages: the page of N chats at offset 0
    followed by the page of M chats at offset N is the page of N+M chats at
    offset 0; a page holds rows of the table only, at most [limit] of them,
    and no jid twice when the table has none twice. *)
Theorem GetChats_pages s :
  (forall N M, 0 <= N -> 0 <= M ->
               fst (GetChats s N 0) ++ fst (GetChats s M N)
               = fst (GetChats s (N + M) 0))
  /\ (forall limit offset,
        snd (GetChats s limit offset) = nil
        /\ (forall c, In c (fst (GetChats s limit offset)) -> In c (chats s))
        /\ (0 <= limit ->
            (List.length (fst (GetChats s limit offset)) <= Z.to_nat limit)%nat)
        /\ (key_invariant s ->
            NoDup (map JID (fst (GetChats s limit offset))))).
Proof.
  split.
  - intros N M HN HM. unfold GetChats, limit_offset. simpl fst.
    destruct (Z.ltb_spec N 0) as [?|_]; [lia|].
    destruct (Z.ltb_spec M 0) as [?|_]; [lia|].
    destruct (Z.ltb_spec (N + M) 0) as [?|_]; [lia|].
    change (Z.to_nat 0) with 0%nat. simpl skipn.
    rewrite Z2Nat.inj_add by assumption.
    apply firstn_then_next.
  - intros limit offset. split; [reflexivity|]. split; [|split].
    + intros c Hin. apply in_rev. revert Hin. apply page_in_table.
    + apply page_length.
    + intros [Hc _]. apply page_NoDup. rewrite map_rev. now apply NoDup_rev.
Qed.

Lemma GetChats_pages_witness :
  fst (GetChats Examples.store3 1 0) ++ fst (GetChats Examples.store3 2 1)
  = fst (GetChats Examples.store3 3 0).
Proof.
  apply (proj1 (GetChats_pages Examples.store3) 1 2); lia.
Defined.

(** X9: A message with content or a media type and a file length below
    2^63, whose stored timestamp text is above that of every message its
    chat holds, is the first row of every non-empty page at offset 0 once it
    is stored. *)
Theorem newest_message_first s msg limit :
  Content msg <> ""%string \/ MediaType msg <> ""%string ->
  fits_int64 msg ->
  In (ChatJID msg) (map JID (chats s)) ->
  (forall m, In m (messages s) -> ChatJID m = ChatJID msg ->
             (Timestamp m <? Timestamp msg)%string = true) ->
  0 < limit ->
  hd_error (fst (GetMessages (snd (StoreMessage s msg)) (ChatJID msg) limit 0))
  = Some msg.
Proof.
  intros Hne Hfit Hin Hnew Hl.
  apply not_empty_guard in Hne. apply fits_int64_spec in Hfit.
  apply chat_exists_spec in Hin.
  rewrite (StoreMessage_written s msg Hne Hfit Hin).
  unfold GetMessages, insert_or_replace. simpl fst. simpl snd. simpl messages.
  rewrite filter_app. simpl. rewrite String.eqb_refl.
  rewrite order_by_desc_newest.
  - unfold limit_offset.
    destruct (Z.ltb_spec limit 0) as [?|_]; [lia|].
    change (Z.to_nat 0) with 0%nat. simpl skipn.
    destruct (Z.to_nat limit) as [|n] eqn:En; [lia | reflexivity].
  - intros m Hm. apply filter_In in Hm as [Hm Hc].
    apply filter_In in Hm as [Hm _].
    apply Hnew; [exact Hm | now apply String.eqb_eq].
Qed.

Lemma newest_message_first_witness :
  hd_error
    (fst (GetMessages
            (snd (StoreMessage Examples.store3
                    (mkText "m7" "1@s.whatsapp.net" "" "new" 8)))
            "1@s.whatsapp.net" 2 0))
  = Some (mkText "m7" "1@s.whatsapp.net" "" "new" 8).
Proof.
  apply (newest_message_first Examples.store3
           (mkText "m7" "1@s.whatsapp.net" "" "new" 8) 2).
  - left. discriminate.
  - unfold fits_int64. simpl. lia.
  - left. reflexivity.
  - simpl. intros m [<-|[<-|[<-|[]]]] _; reflexivity.
  - lia.
Defined.

(** X10: Row count of a chat: a stored message with content or a media type
    and a file length below 2^63 adds one row to the complete listing of its
    chat when its (id, chat_jid) is new and none when it replaces a row. *)
Theorem StoreMessage_row_count s msg :
  key_invariant s ->
  Content msg <> ""%string \/ MediaType msg <> ""%string ->
  fits_int64 msg ->
  In (ChatJID msg) (map JID (chats s)) ->
  (In (msg_key msg) (map msg_key (messages s)) ->
   List.length (fst (GetMessages (snd (StoreMessage s msg)) (ChatJID msg) (-1) 0))
   = List.length (fst (GetMessages s (ChatJID msg) (-1) 0)))
  /\ (~ In (msg_key msg) (map msg_key (messages s)) ->
      List.length (fst (GetMessages (snd (StoreMessage s msg)) (ChatJID msg) (-1) 0))
      = S (List.length (fst (GetMessages s (ChatJID msg) (-1) 0)))).
Proof.
  intros [_ Hk] Hne Hfit Hin.
  apply not_empty_guard in Hne. apply fits_int64_spec in Hfit.
  apply chat_exists_spec in Hin.
  rewrite (StoreMessage_written s msg Hne Hfit Hin).
  unfold GetMessages. simpl fst. simpl snd. simpl messages.
  rewrite !unlimited.
  rewrite !(Permutation_length (order_by_desc_perm Timestamp _)).
  set (mine := fun m : Message => (ChatJID m =? ChatJID msg)%string).
  assert (Hsub : filter mine (insert_or_replace same_msg_key msg (messages s))
                 = insert_or_replace same_msg_key msg
                     (filter mine (messages s))).
  { unfold insert_or_replace. rewrite filter_app, !filter_twice. simpl.
    unfold mine at 2. rewrite String.eqb_refl. f_equal.
    apply filter_ext. intros m. apply andb_comm. }
  assert (Hkeys : In (msg_key msg) (map msg_key (filter mine (messages s)))
                  <-> In (msg_key msg) (map msg_key (messages s))).
  { rewrite !in_map_iff. split; intros (m & E & Hm).
    - apply filter_In in Hm as [Hm _]. eauto.
    - exists m. split; [exact E|]. apply filter_In. split; [exact Hm|].
      unfold mine. apply String.eqb_eq. now injection E. }
  rewrite Hsub. split; intros Hpresent.
  - apply (upsert_length msg_key same_msg_key same_msg_key_spec).
    + now apply filter_keys_NoDup.
    + now apply Hkeys.
  - apply (upsert_length_new msg_key same_msg_key same_msg_key_spec).
    now rewrite Hkeys.
Qed.

Lemma StoreMessage_row_count_witness :
  List.length
    (fst (GetMessages
            (snd (StoreMessage Examples.store3
                    (mkText "m2" "1@s.whatsapp.net" "" "again" 6)))
            "1@s.whatsapp.net" (-1) 0))
  = 3%nat.
Proof.
  destruct (StoreMessage_row_count Examples.store3
              (mkText "m2" "1@s.whatsapp.net" "" "again" 6)) as [H _].
  - apply (run_keys _ NewStore), NewStore_ok.
  - left. discriminate.
  - unfold fits_int64. simpl. lia.
  - left. reflexivity.
  - transitivity (List.length
                    (fst (GetMessages Examples.store3 "1@s.whatsapp.net"
                            (-1) 0))); [|reflexivity].
    apply H. right. left. reflexivity.
Defined.

End StoreExtras.

(** ** Further properties of identity validation *)

Module ValidationExtras.
Import GoString Regexp RegexpFacts PatternFacts Validation Shapes MoreShapes.
Import ValidationFacts.

Lemma ValidateRecipient_cases s :
  ValidateRecipient s = nil
  <-> ValidatePhoneNumber s = nil \/ ValidateJID s = nil.
Proof.
  unfold ValidateRecipient. destruct (String.eqb_spec s "") as [->|Hne].
  - vm_compute. split; [discriminate | intros [H|H]; discriminate].
  - destruct (ValidatePhoneNumber s) as [e1|];
      destruct (ValidateJID s) as [e2|]; unfold nil, Errorf;
      split; auto; try discriminate; intros [H|H]; discriminate.
Qed.

Lemma all_digits_bytes s : all_digits s = all_bytes is_digit s.
Proof. induction s as [|c s IH]; simpl; [reflexivity | now rewrite IH]. Qed.

Lemma all_bytes_append p a b :
  all_bytes p (a ++ b) = all_bytes p a && all_bytes p b.
Proof.
  induction a as [|c a IH]; simpl; [reflexivity|].
  now rewrite IH, andb_assoc.
Qed.

Lemma all_bytes_weaken (p q : ascii -> bool) s :
  (forall c, p c = true -> q c = true) ->
  all_bytes p s = true -> all_bytes q s = true.
Proof.
  intros Hpq. induction s as [|c s IH]; simpl; [reflexivity|].
  intros H. apply andb_true_iff in H as [Hc Hs].
  now rewrite (Hpq c Hc), IH.
Qed.

Lemma digits_are_recipient_bytes s :
  all_digits s = true -> all_bytes recipient_byte s = true.
Proof.
  rewrite all_digits_bytes. apply all_bytes_weaken.
  intros c Hc. unfold recipient_byte. now rewrite Hc.
Qed.

(** X11: ValidatePhoneNumber accepts exactly the strings of 10 to 15 ASCII
    digits: no sign, no separator, no blank is let through; the empty
    string has an error of its own, every other rejected string is quoted
    in the error. *)
Theorem ValidatePhoneNumber_accepts_digits_only s :
  (ValidatePhoneNumber s = nil
   <-> all_digits s = true /\ 10 <= String.length s <= 15)
  /\ (s = "" -> ValidatePhoneNumber s = Errorf "phone number cannot be empty")
  /\ (s <> "" -> ValidatePhoneNumber s <> nil ->
      ValidatePhoneNumber s
      = Errorf ("invalid phone number format: " ++ s
                ++ " (should be 10-15 digits)")).
Proof.
  split; [apply ValidatePhoneNumber_spec|]. split.
  - intros ->. reflexivity.
  - intros Hne. unfold ValidatePhoneNumber.
    destruct (String.eqb_spec s "") as [->|_]; [congruence|].
    destruct (MatchString phonePattern s); simpl; congruence.
Qed.

Lemma ValidatePhoneNumber_accepts_digits_only_witness :
  ValidatePhoneNumber "+4915123456789"
  = Errorf "invalid phone number format: +4915123456789 (should be 10-15 digits)"
  /\ ValidatePhoneNumber "004915123456789" = nil.
Proof.
  split.
  - apply (proj2 (proj2 (ValidatePhoneNumber_accepts_digits_only
                           "+4915123456789"))); discriminate.
  - apply (proj1 (ValidatePhoneNumber_accepts_digits_only "004915123456789")).
    split; [reflexivity | simpl; lia].
Defined.

(** X12: The three shapes of a recipient exclude one another: no string is
    accepted both by ValidatePhoneNumber and by ValidateJID, and no string
    matches both JID patterns. *)
Theorem recipient_shapes_exclusive s :
  ~ (ValidatePhoneNumber s = nil /\ ValidateJID s = nil)
  /\ ~ (MatchString phoneJIDPattern s = true
        /\ MatchString groupJIDPattern s = true).
Proof.
  split.
  - intros [Hp Hj]. apply ValidatePhoneNumber_spec in Hp as [Hd _].
    apply ValidateJID_forms in Hj as [(d & -> & _)|(a & b & -> & _)].
    + rewrite all_digits_append in Hd.
      apply andb_true_iff in Hd as [_ Hd]. discriminate.
    + rewrite all_digits_append in Hd.
      apply andb_true_iff in Hd as [_ Hd]. discriminate.
  - intros [Hu Hg]. apply phoneJIDPattern_spec in Hu as (d & -> & _).
    apply groupJIDPattern_spec in Hg as (a & b & E & _).
    now apply domains_disjoint in E.
Qed.

(** X13: A recipient that ValidateRecipient accepts is made of ASCII digits,
    '-', '@', '.' and lower-case letters only: no blank, quote, slash,
    control byte or byte above 127 gets through. *)
Theorem accepted_recipient_alphabet s :
  ValidateRecipient s = nil -> all_bytes recipient_byte s = true.
Proof.
  intros H. apply ValidateRecipient_cases in H as [H|H].
  - apply ValidatePhoneNumber_spec in H as [Hd _].
    now apply digits_are_recipient_bytes.
  - apply ValidateJID_forms in H
      as [(d & -> & Hd & _)|(a & b & -> & [Ha _] & [Hb _])].
    + rewrite all_bytes_append, (digits_are_recipient_bytes d Hd).
      reflexivity.
    + rewrite !all_bytes_append, (digits_are_recipient_bytes a Ha),
        (digits_are_recipient_bytes b Hb).
      reflexivity.
Qed.

Lemma accepted_recipient_alphabet_witness :
  all_bytes recipient_byte "123456789-123456789@g.us" = true.
Proof.
  apply (accepted_recipient_alphabet "123456789-123456789@g.us").
  reflexivity.
Defined.

End ValidationExtras.

(** ** Further properties of path validation *)

Module PathExtras.
Import GoString Filepath Validation PathFacts PathShapes.
Local Open Scope list_scope.

Lemma HasPrefix_empty s : HasPrefix s "" = true.
Proof. now destruct s. Qed.

Lemma Contains_dotdot_bytes s :
  Contains s ".." = negb (no_dotdot (list_ascii_of_string s)).
Proof.
  induction s as [|a s IH]; [reflexivity|].
  change (Contains (String a s) "..")
    with (HasPrefix (String a s) ".." || Contains s "..").
  rewrite IH. destruct s as [|b s]; simpl.
  - now rewrite andb_false_r.
  - rewrite HasPrefix_empty, andb_true_r, negb_andb, negb_involutive.
    unfold is_dot. now rewrite (Ascii.eqb_sym a), (Ascii.eqb_sym b).
Qed.

Lemma Contains_NUL_bytes s :
  Contains s NUL = negb (no_nul (list_ascii_of_string s)).
Proof.
  induction s as [|a s IH]; [reflexivity|].
  change (Contains (String a s) NUL)
    with (HasPrefix (String a s) NUL || Contains s NUL).
  rewrite IH. simpl. rewrite HasPrefix_empty, andb_true_r, negb_andb,
    negb_involutive.
  now rewrite (Ascii.eqb_sym a).
Qed.

Lemma no_dotdot_cons a l :
  is_dot a = false -> no_dotdot (a :: l) = no_dotdot l.
Proof. intros Ha. destruct l as [|b l]; simpl; [reflexivity | now rewrite Ha]. Qed.

Lemma no_dotdot_app_l l1 : forall l2,
  no_dotdot (l1 ++ l2) = true -> no_dotdot l1 = true.
Proof.
  induction l1 as [|a l1 IH]; intros l2 H; [reflexivity|].
  destruct l1 as [|b l1]; [reflexivity|].
  simpl in H. apply andb_true_iff in H as [Hab H].
  change (no_dotdot (a :: b :: l1))
    with (negb (is_dot a && is_dot b) && no_dotdot (b :: l1)).
  rewrite Hab. simpl. now apply (IH l2).
Qed.

Lemma no_dotdot_tail a l : no_dotdot (a :: l) = true -> no_dotdot l = true.
Proof.
  destruct l as [|b l]; [reflexivity|]. simpl.
  intros H. now apply andb_true_iff in H as [_ H].
Qed.

(** Joined by a byte that is not '.', two dot-dot-free runs stay so. *)
Lemma no_dotdot_join l1 : forall c l2,
  is_dot c = false ->
  no_dotdot l1 = true -> no_dotdot l2 = true ->
  no_dotdot (l1 ++ c :: l2) = true.
Proof.
  induction l1 as [|a l1 IH]; intros c l2 Hc H1 H2.
  - simpl app. now rewrite no_dotdot_cons.
  - destruct l1 as [|b l1].
    + simpl app.
      change (no_dotdot (a :: c :: l2))
        with (negb (is_dot a && is_dot c) && no_dotdot (c :: l2)).
      rewrite Hc, andb_false_r. cbn [negb andb]. now rewrite no_dotdot_cons.
    + change (no_dotdot ((a :: b :: l1) ++ c :: l2))
        with (negb (is_dot a && is_dot b) && no_dotdot ((b :: l1) ++ c :: l2)).
      simpl in H1. apply andb_true_iff in H1 as [Hab H1].
      rewrite Hab. cbn [andb]. now apply IH.
Qed.

Lemma no_nul_app l1 l2 : no_nul (l1 ++ l2) = no_nul l1 && no_nul l2.
Proof. apply forallb_app. Qed.

Lemma HasPrefix_split s : forall p,
  HasPrefix s p = true -> exists t, s = (p ++ t)%string.
Proof.
  induction s as [|a s IH]; intros [|b p] H; simpl in H.
  - now exists "".
  - discriminate.
  - now exists (String a s).
  - apply andb_true_iff in H as [Hab H]. apply Ascii.eqb_eq in Hab as ->.
    destruct (IH p H) as (t & ->). now exists t.
Qed.

(** The elements of a path without ".." and without null byte are without
    them too. *)
Lemma elements_clean s :
  no_dotdot (list_ascii_of_string s) = true ->
  no_nul (list_ascii_of_string s) = true ->
  forall e, In e (elements s) ->
            no_dotdot (list_ascii_of_string e) = true
            /\ no_nul (list_ascii_of_string e) = true.
Proof.
  induction s as [|c s IH]; intros Hd Hn e He.
  - destruct He as [<-|[]]. now split.
  - simpl in Hn. apply andb_true_iff in Hn as [Hc Hn].
    assert (Hd' := no_dotdot_tail _ _ Hd).
    simpl in He. destruct (IsPathSeparator c).
    + destruct He as [<-|He]; [now split | now apply IH].
    + destruct (elements_head s) as (e0 & es & E & Hp).
      rewrite E in He, IH. destruct He as [<-|He].
      * apply HasPrefix_split in Hp as (t & ->).
        cbn [list_ascii_of_string] in Hd.
        rewrite bytes_append in Hd, Hn. rewrite no_nul_app in Hn.
        apply andb_true_iff in Hn as [Hn _]. simpl. rewrite Hc, Hn.
        split; [|reflexivity].
        now apply (no_dotdot_app_l (c :: list_ascii_of_string e0)
                                   (list_ascii_of_string t)).
      * apply IH; [assumption | assumption | now right].
Qed.

Lemma clean_step_clean_buf b e :
  clean_buf b ->
  no_dotdot (list_ascii_of_string e) = true ->
  no_nul (list_ascii_of_string e) = true ->
  clean_buf (clean_step true b e).
Proof.
  intros Hb He Hn.
  destruct (clean_step_keeps_root b e) as [Hroot Hdd];
    [destruct Hb as (Ho & Hd & _); now split|].
  split; [exact Hroot|]. split; [exact Hdd|].
  destruct Hb as ((o & Ho) & Hd & Hdot & Hnul).
  unfold clean_step.
  destruct ((e =? "") || (e =? "."))%string; [now split|].
  destruct (String.eqb_spec e "..") as [->|_]; [discriminate|].
  cbn [out]. unfold push_string. rewrite rev_append_rev, rev_app_distr,
    rev_involutive.
  assert (Hsep : exists f, no_dotdot (f ++ [Separator]) = true
                           /\ no_nul (f ++ [Separator]) = true
                           /\ List.rev
                                (if (true && negb (Nat.eqb (List.length (out b)) 1)
                                     || negb true && negb (Nat.eqb (List.length (out b)) 0))%bool
                                 then Separator :: out b else out b)
                              = f ++ [Separator]).
  { destruct (true && negb (Nat.eqb (List.length (out b)) 1)
              || negb true && negb (Nat.eqb (List.length (out b)) 0))%bool eqn:Hw.
    - exists (List.rev (out b)). simpl. repeat split.
      + replace (List.rev (out b) ++ [Separator])
          with (List.rev (out b) ++ Separator :: []) by reflexivity.
        now apply no_dotdot_join.
      + rewrite no_nul_app, Hnul. reflexivity.
    - simpl in Hw. rewrite orb_false_r in Hw.
      apply negb_false_iff, Nat.eqb_eq in Hw.
      rewrite Ho in Hw. destruct o as [|x o]; [|simpl in Hw;
        rewrite length_app in Hw; simpl in Hw; lia].
      exists []. rewrite Ho. now repeat split. }
  destruct Hsep as (f & Hf1 & Hf2 & ->).
  rewrite <- app_assoc. simpl. split.
  - apply no_dotdot_join; [reflexivity | | exact He].
    now apply no_dotdot_app_l in Hf1.
  - rewrite no_nul_app in Hf2. apply andb_true_iff in Hf2 as [Hf2 _].
    rewrite no_nul_app, Hf2. simpl. exact Hn.
Qed.

(** Clean brings neither ".." nor a null byte into an absolute path that
    has none. *)
Lemma Clean_stays_clean path :
  IsAbs path = true ->
  Contains path ".." = false -> Contains path NUL = false ->
  Contains (Clean path) ".." = false /\ Contains (Clean path) NUL = false.
Proof.
  intros Habs Hd Hn.
  rewrite Contains_dotdot_bytes in Hd. apply negb_false_iff in Hd.
  rewrite Contains_NUL_bytes in Hn. apply negb_false_iff in Hn.
  destruct path as [|c rest]; [discriminate|].
  assert (Hr : IsPathSeparator c = true).
  { unfold IsAbs in Habs. cbn [HasPrefix] in Habs.
    apply andb_true_iff in Habs as [H _].
    unfold IsPathSeparator, Separator. now rewrite Ascii.eqb_sym. }
  assert (Hinv : forall es b,
             clean_buf b ->
             (forall e, In e es ->
                        no_dotdot (list_ascii_of_string e) = true
                        /\ no_nul (list_ascii_of_string e) = true) ->
             clean_buf (fold_left (clean_step true) es b)).
  { induction es as [|e es IH]; intros b Hb Hes; cbn [fold_left];
      [exact Hb|].
    apply IH; [|intros e' He'; apply Hes; now right].
    destruct (Hes e (or_introl eq_refl)). now apply clean_step_clean_buf. }
  destruct (Hinv (elements rest) {| out := [Separator]; dotdot := 1 |})
    as ((o & Ho) & _ & Hdot & Hnul).
  { split; [now exists []|]. now repeat split. }
  { apply elements_clean.
    - now apply no_dotdot_tail in Hd.
    - simpl in Hn. now apply andb_true_iff in Hn as [_ Hn]. }
  unfold Clean. rewrite Hr.
  destruct (out (fold_left (clean_step true) (elements rest)
                   {| out := [Separator]; dotdot := 1 |})) as [|x o'] eqn:E.
  - now destruct o.
  - rewrite Contains_dotdot_bytes, Contains_NUL_bytes,
      list_ascii_of_string_of_list_ascii, Hdot, Hnul.
    now split.
Qed.

(** X14: ValidateFilePath accepts every absolute path that holds neither ".."
    nor a null byte, whatever the working directory and whether or not a
    file of that name exists. *)
Theorem ValidateFilePath_accepts_plain_absolute getwd path :
  IsAbs path = true ->
  Contains path ".." = false -> Contains path NUL = false ->
  ValidateFilePath getwd path = nil.
Proof.
  intros Habs Hd Hn.
  destruct (Clean_stays_clean path Habs Hd Hn) as [Hd1 Hn1].
  assert (Habs1 := Clean_keeps_root path Habs).
  destruct (Clean_stays_clean (Clean path) Habs1 Hd1 Hn1) as [_ Hn2].
  apply ValidateFilePath_passes. split; [|split].
  - intros ->. discriminate.
  - exact Hd1.
  - exists (Clean (Clean path)). split; [|exact Hn2].
    unfold Abs. now rewrite Habs1.
Qed.

Lemma ValidateFilePath_accepts_plain_absolute_witness :
  ValidateFilePath (Failed "getwd: no such file or directory")
                   "/var/lib/bridge//media/./photo.final.jpg"
  = nil.
Proof.
  apply (ValidateFilePath_accepts_plain_absolute
           (Failed "getwd: no such file or directory")
           "/var/lib/bridge//media/./photo.final.jpg");
    reflexivity.
Defined.

Lemma elements_no_separator s :
  forall e, In e (elements s) ->
            forallb (fun c => negb (IsPathSeparator c)) (list_ascii_of_string e)
            = true.
Proof.
  induction s as [|c s IH]; simpl; intros e He.
  - destruct He as [<-|[]]. reflexivity.
  - destruct (IsPathSeparator c) eqn:Hc.
    + destruct He as [<-|He]; [reflexivity | now apply IH].
    + destruct (elements_head s) as (e0 & es & E & _).
      rewrite E in He, IH. destruct He as [<-|He].
      * simpl. rewrite Hc. apply IH. now left.
      * apply IH. now right.
Qed.

Lemma backtrack_is_tail dd o : exists k, o = k ++ backtrack dd o.
Proof.
  induction o as [|c o (k & IH)]; simpl; [now exists []|].
  destruct (Nat.ltb dd (List.length o) && negb (IsPathSeparator c)).
  - exists (c :: k). simpl. now f_equal.
  - now exists [c].
Qed.

Lemma tail_keeps_bottom (k t o : list ascii) c :
  o ++ [c] = k ++ t -> t = [] \/ exists o', t = o' ++ [c].
Proof.
  intros E. destruct t as [|x t] using rev_ind; [now left|]. right.
  rewrite app_assoc in E. apply app_inj_tail in E as [_ <-]. eauto.
Qed.

Lemma clean_step_relative_buf b e :
  relative_buf b ->
  forallb (fun c => negb (IsPathSeparator c)) (list_ascii_of_string e) = true ->
  relative_buf (clean_step false b e).
Proof.
  intros Hb He. unfold clean_step.
  destruct ((e =? "") || (e =? "."))%string eqn:Hskip; [exact Hb|].
  destruct (e =? "..")%string.
  - destruct (Nat.ltb (dotdot b) (List.length (out b))); cbn [negb].
    + unfold relative_buf. cbn [out].
      destruct Hb as [E|(o & c & E & Hc)].
      * rewrite E. now left.
      * destruct (backtrack_is_tail (dotdot b) (out b)) as (k & Hk).
        rewrite E in Hk at 1.
        apply tail_keeps_bottom in Hk as [->|(o' & ->)]; [now left|].
        right. eauto.
    + unfold relative_buf. cbn [out]. right.
      destruct Hb as [E|(o & c & E & Hc)]; rewrite E.
      * now exists ["."%char], "."%char.
      * destruct (Nat.ltb 0 (List.length (o ++ [c]))).
        -- now exists ("."%char :: "."%char :: Separator :: o), c.
        -- now exists ("."%char :: "."%char :: o), c.
  - unfold relative_buf. cbn [out]. unfold push_string.
    rewrite rev_append_rev. right.
    destruct Hb as [E|(o & c & E & Hc)]; rewrite E.
    + simpl. rewrite app_nil_r.
      destruct e as [|c e]; [discriminate|]. simpl in He.
      apply andb_true_iff in He as [Hc _]. apply negb_true_iff in Hc.
      simpl. eauto.
    + destruct (false && negb (Nat.eqb (List.length (o ++ [c])) 1)
                || negb false && negb (Nat.eqb (List.length (o ++ [c])) 0))%bool.
      * exists (List.rev (list_ascii_of_string e) ++ Separator :: o), c.
        now rewrite <- app_assoc.
      * exists (List.rev (list_ascii_of_string e) ++ o), c.
        now rewrite <- app_assoc.
Qed.

Lemma Clean_keeps_relative path :
  IsAbs path = false -> IsAbs (Clean path) = false.
Proof.
  destruct path as [|c rest]; [reflexivity|]. intros Hrel.
  assert (Hc : IsPathSeparator c = false).
  { unfold IsAbs in Hrel. cbn [HasPrefix] in Hrel.
    rewrite HasPrefix_empty, andb_true_r in Hrel.
    unfold IsPathSeparator, Separator. now rewrite Ascii.eqb_sym. }
  assert (Hinv : forall es b,
             relative_buf b ->
             (forall e, In e es ->
                        forallb (fun c => negb (IsPathSeparator c))
                                (list_ascii_of_string e) = true) ->
             relative_buf (fold_left (clean_step false) es b)).
  { induction es as [|e es IH]; intros b Hb Hes; cbn [fold_left];
      [exact Hb|].
    apply IH; [|intros e' He'; apply Hes; now right].
    apply clean_step_relative_buf; [exact Hb | apply Hes; now left]. }
  unfold Clean. rewrite Hc.
  destruct (Hinv (elements (String c rest)) {| out := []; dotdot := 0 |})
    as [E|(o & x & E & Hx)].
  - now left.
  - apply elements_no_separator.
  - now rewrite E.
  - rewrite E. destruct (o ++ [x]) eqn:E'; [now destruct o|].
    rewrite <- E', rev_app_distr.
    change (List.rev [x] ++ List.rev o) with (x :: List.rev o).
    cbn [string_of_list_ascii]. unfold IsAbs. cbn [HasPrefix].
    unfold IsPathSeparator, Separator in Hx.
    now rewrite Ascii.eqb_sym, Hx.
Qed.

(** X15: A relative path cannot be validated when the working directory is not
    available: whatever the path, ValidateFilePath fails. *)
Theorem ValidateFilePath_relative_needs_getwd err path :
  IsAbs path = false -> ValidateFilePath (Failed err) path <> nil.
Proof.
  intros Hrel. unfold ValidateFilePath.
  destruct (path =? "")%string; [discriminate|].
  destruct (Contains (Clean path) ".."); [discriminate|].
  unfold Abs. rewrite (Clean_keeps_relative path Hrel). discriminate.
Qed.

Lemma ValidateFilePath_relative_needs_getwd_witness :
  exists msg,
    ValidateFilePath (Failed "getwd: no such file or directory")
                     "media/photo.jpg"
    = Errorf msg.
Proof.
  destruct (ValidateFilePath (Failed "getwd: no such file or directory")
                             "media/photo.jpg") as [msg|] eqn:E.
  - now exists msg.
  - exfalso.
    apply (ValidateFilePath_relative_needs_getwd
             "getwd: no such file or directory" "media/photo.jpg");
      [reflexivity | exact E].
Defined.

Lemma forallb_reversed {A : Type} (p : A -> bool) l :
  forallb p (List.rev l) = forallb p l.
Proof.
  induction l as [|a l IH]; simpl; [reflexivity|].
  rewrite forallb_app, IH. simpl. rewrite andb_true_r. apply andb_comm.
Qed.

Lemma elements_no_nul s :
  no_nul (list_ascii_of_string s) = true ->
  forall e, In e (elements s) -> no_nul (list_ascii_of_string e) = true.
Proof.
  induction s as [|c s IH]; intros Hn e He.
  - destruct He as [<-|[]]. reflexivity.
  - simpl in Hn. apply andb_true_iff in Hn as [Hc Hn].
    simpl in He. destruct (IsPathSeparator c).
    + destruct He as [<-|He]; [reflexivity | now apply IH].
    + destruct (elements_head s) as (e0 & es & E & _).
      rewrite E in He, IH. destruct He as [<-|He].
      * simpl. rewrite Hc. apply IH; [exact Hn | now left].
      * apply IH; [exact Hn | now right].
Qed.

Lemma clean_step_no_nul rooted b e :
  no_nul (out b) = true -> no_nul (list_ascii_of_string e) = true ->
  no_nul (out (clean_step rooted b e)) = true.
Proof.
  intros Hb He. unfold clean_step.
  destruct ((e =? "") || (e =? "."))%string; [exact Hb|].
  destruct (e =? "..")%string.
  - destruct (Nat.ltb (dotdot b) (List.length (out b))).
    + cbn [out].
      destruct (backtrack_is_tail (dotdot b) (out b)) as (k & Hk).
      rewrite Hk, no_nul_app in Hb. now apply andb_true_iff in Hb as [_ Hb].
    + destruct (negb rooted); [|exact Hb]. cbn [out].
      destruct (Nat.ltb 0 (List.length (out b))); simpl; exact Hb.
  - cbn [out]. unfold push_string.
    rewrite rev_append_rev, no_nul_app. unfold no_nul at 1.
    rewrite forallb_reversed. fold (no_nul (list_ascii_of_string e)).
    rewrite He.
    destruct (rooted && negb (Nat.eqb (List.length (out b)) 1)
              || negb rooted && negb (Nat.eqb (List.length (out b)) 0))%bool;
      simpl; exact Hb.
Qed.

(** Clean never brings a null byte into a path. *)
Lemma Clean_no_nul path :
  Contains path NUL = false -> Contains (Clean path) NUL = false.
Proof.
  intros Hn. rewrite Contains_NUL_bytes in Hn. apply negb_false_iff in Hn.
  destruct path as [|c rest]; [reflexivity|].
  assert (Hinv : forall rooted es b,
             no_nul (out b) = true ->
             (forall e, In e es -> no_nul (list_ascii_of_string e) = true) ->
             no_nul (out (fold_left (clean_step rooted) es b)) = true).
  { intros rooted. induction es as [|e es IH]; intros b Hb Hes;
      cbn [fold_left]; [exact Hb|].
    apply IH; [|intros e' He'; apply Hes; now right].
    apply clean_step_no_nul; [exact Hb | apply Hes; now left]. }
  unfold Clean.
  match goal with
  | |- Contains match out ?b with _ => _ end NUL = false =>
      assert (Hout : no_nul (out b) = true); [|destruct (out b) as [|x o]]
  end.
  - apply Hinv.
    + now destruct (IsPathSeparator c).
    + destruct (IsPathSeparator c); apply elements_no_nul; [|exact Hn].
      simpl in Hn. now apply andb_true_iff in Hn as [_ Hn].
  - reflexivity.
  - rewrite Contains_NUL_bytes, list_ascii_of_string_of_list_ascii.
    unfold no_nul. rewrite forallb_reversed. fold (no_nul (x :: o)).
    now rewrite Hout.
Qed.

Lemma Contains_NUL_append a b :
  Contains (a ++ b)%string NUL = Contains a NUL || Contains b NUL.
Proof.
  rewrite !Contains_NUL_bytes, bytes_append, no_nul_app.
  apply negb_andb.
Qed.

(** X16: With a working directory at hand and no null byte in sight, the shape
    of the path decides alone: ValidateFilePath accepts exactly the
    non-empty paths whose cleaned form holds no "..".  No file is looked
    for. *)
Theorem ValidateFilePath_decided_by_shape wd path :
  Contains wd NUL = false -> Contains path NUL = false ->
  (ValidateFilePath (Ok wd) path = nil
   <-> path <> ""%string /\ Contains (Clean path) ".." = false).
Proof.
  intros Hwd Hn. rewrite ValidateFilePath_passes. split.
  - intros (Hne & Hd & _). now split.
  - intros [Hne Hd]. split; [exact Hne|]. split; [exact Hd|].
    assert (Hc := Clean_no_nul path Hn).
    unfold Abs, Join.
    destruct (IsAbs (Clean path)).
    + eexists. split; [reflexivity | now apply Clean_no_nul].
    + destruct (wd =? "")%string; cbn [negb].
      * destruct (Clean path =? "")%string; cbn [negb];
          eexists; (split; [reflexivity|]);
          [reflexivity | now apply Clean_no_nul].
      * eexists. split; [reflexivity|]. apply Clean_no_nul.
        rewrite !Contains_NUL_append, Hwd, Hc. reflexivity.
Qed.

Lemma ValidateFilePath_decided_by_shape_witness :
  ValidateFilePath (Ok "/srv/bridge") "media/../media/a.b/photo.jpg" = nil.
Proof.
  apply (ValidateFilePath_decided_by_shape "/srv/bridge"
           "media/../media/a.b/photo.jpg"); try reflexivity.
  split; [discriminate | reflexivity].
Defined.

End PathExtras.

(** ** Media types *)

Module MediaExtras.
Import Filepath FilepathExt Strings ValidationMore MoreShapes PathExtras.
Local Open Scope list_scope.

Lemma lower_byte_keeps c :
  Ascii.eqb (lower_byte c) "." = Ascii.eqb c "."
  /\ IsPathSeparator (lower_byte c) = IsPathSeparator c
  /\ is_ascii_byte (lower_byte c) = is_ascii_byte c.
Proof.
  destruct c as [[] [] [] [] [] [] [] []]; vm_compute; repeat split.
Qed.

Lemma lower_ascii_all_ascii e : all_ascii (lower_ascii e) = all_ascii e.
Proof.
  induction e as [|c e IH]; simpl; [reflexivity|].
  destruct (lower_byte_keeps c) as (_ & _ & ->). now rewrite IH.
Qed.

Lemma lower_ascii_plain e :
  all_bytes plain_byte (lower_ascii e) = all_bytes plain_byte e.
Proof.
  induction e as [|c e IH]; simpl; [reflexivity|]. unfold plain_byte at 1 3.
  destruct (lower_byte_keeps c) as (-> & -> & _). now rewrite IH.
Qed.

Lemma lower_ascii_ext_shape e : ext_shape (lower_ascii e) = ext_shape e.
Proof.
  destruct e as [|c e]; simpl; [reflexivity|].
  destruct (lower_byte_keeps c) as (-> & _ & _).
  now rewrite lower_ascii_plain.
Qed.

Lemma all_ascii_append a b : all_ascii (a ++ b) = all_ascii a && all_ascii b.
Proof.
  induction a as [|c a IH]; simpl; [reflexivity|].
  now rewrite IH, andb_assoc.
Qed.

(** The table and the list of extensions agree, and every extension in it
    is a dot followed by ASCII letters and digits. *)
Lemma allowed_extension_index e :
  map_index allowedTypes e = true <-> allowed_extension e.
Proof.
  unfold allowed_extension, allowedTypes, map_index. split.
  - repeat match goal with
           | |- context [String.eqb ?k e] =>
               destruct (String.eqb_spec k e) as [<-|_];
               [intros _; simpl; repeat (first [left; reflexivity | right])|]
           end.
    discriminate.
  - simpl. intros H.
    repeat (destruct H as [<-|H]; [reflexivity|]). destruct H.
Qed.

Lemma allowed_extension_shape e :
  allowed_extension e -> ext_shape e = true /\ all_ascii e = true.
Proof.
  unfold allowed_extension. simpl. intros H.
  repeat (destruct H as [<-|H]; [now split|]). destruct H.
Qed.

Lemma ext_loop_skip e : forall before after,
  all_bytes plain_byte e = true ->
  ext_loop (List.rev (list_ascii_of_string e) ++ before) after
  = ext_loop before (list_ascii_of_string e ++ after).
Proof.
  induction e as [|c e IH]; intros before after H; [reflexivity|].
  simpl in H. apply andb_true_iff in H as [Hc He].
  apply andb_true_iff in Hc as [Hsep Hdot].
  apply negb_true_iff in Hsep, Hdot.
  cbn [list_ascii_of_string List.rev]. rewrite <- app_assoc.
  rewrite IH by exact He. cbn [app ext_loop]. now rewrite Hsep, Hdot.
Qed.

(** The extension of a name that ends in a dot and plain bytes is that
    ending, whatever comes before. *)
Lemma Ext_of_ending stem e :
  ext_shape e = true -> Ext (stem ++ e)%string = e.
Proof.
  destruct e as [|c t]; [discriminate|]. simpl. intros H.
  apply andb_true_iff in H as [Hc Ht]. apply Ascii.eqb_eq in Hc as ->.
  unfold Ext. rewrite bytes_append, rev_app_distr.
  cbn [list_ascii_of_string List.rev]. rewrite <- app_assoc.
  rewrite ext_loop_skip by exact Ht. cbn [app ext_loop].
  rewrite app_nil_r.
  change (string_of_list_ascii ("."%char :: list_ascii_of_string t))
    with (String "." (string_of_list_ascii (list_ascii_of_string t))).
  now rewrite string_of_list_ascii_of_string.
Qed.

Lemma ext_loop_is_ending before : forall after,
  exists k, List.rev before ++ after
            = k ++ list_ascii_of_string (ext_loop before after).
Proof.
  induction before as [|c more IH]; intros after; cbn [ext_loop].
  - exists after. now rewrite app_nil_r.
  - destruct (IsPathSeparator c).
    + exists (List.rev (c :: more) ++ after). now rewrite app_nil_r.
    + destruct (Ascii.eqb c ".").
      * exists (List.rev more).
        rewrite list_ascii_of_string_of_list_ascii. simpl.
        now rewrite <- app_assoc.
      * destruct (IH (c :: after)) as (k & E). exists k.
        rewrite <- E. simpl. now rewrite <- app_assoc.
Qed.

Lemma Ext_is_ending name : exists stem, name = (stem ++ Ext name)%string.
Proof.
  destruct (ext_loop_is_ending (List.rev (list_ascii_of_string name)) [])
    as (k & E).
  rewrite rev_involutive, app_nil_r in E. fold (Ext name) in E.
  exists (string_of_list_ascii k). apply bytes_inj.
  now rewrite bytes_append, list_ascii_of_string_of_list_ascii.
Qed.

Lemma append_not_empty stem e : e <> ""%string -> (stem ++ e =? "")%string = false.
Proof.
  intros He. apply String.eqb_neq. intros E.
  apply append_eq_empty in E as [_ E]. contradiction.
Qed.

(** X17: ValidateMediaType looks at the ending of the name only.  A name that
    ends, in upper or lower case, in one of the sixteen extensions is
    accepted whatever precedes the extension: directories, "..", other
    extensions, any bytes at all.  On a name of ASCII bytes the converse
    holds too: the name is accepted exactly when it has such an ending. *)
Theorem ValidateMediaType_by_ending mapLower :
  (forall stem e,
      allowed_extension (lower_ascii e) ->
      ValidateMediaType mapLower (stem ++ e)%string = nil)
  /\ (forall name,
        all_ascii name = true ->
        (ValidateMediaType mapLower name = nil
         <-> exists stem e, name = (stem ++ e)%string
                            /\ allowed_extension (lower_ascii e))).
Proof.
  assert (Hending : forall stem e,
             allowed_extension (lower_ascii e) ->
             ValidateMediaType mapLower (stem ++ e)%string = nil).
  { intros stem e Hal.
    destruct (allowed_extension_shape _ Hal) as [Hshape Hascii].
    rewrite lower_ascii_ext_shape in Hshape.
    rewrite lower_ascii_all_ascii in Hascii.
    unfold ValidateMediaType.
    rewrite append_not_empty by (intros ->; discriminate).
    rewrite Ext_of_ending by exact Hshape.
    unfold ToLower. rewrite Hascii.
    apply allowed_extension_index in Hal. now rewrite Hal. }
  split; [exact Hending|].
  intros name Hascii. split.
  - unfold ValidateMediaType.
    destruct (name =? "")%string; [discriminate|].
    destruct (Ext_is_ending name) as (stem & E).
    assert (Hext : all_ascii (Ext name) = true).
    { rewrite E, all_ascii_append in Hascii.
      now apply andb_true_iff in Hascii as [_ H]. }
    unfold ToLower. rewrite Hext.
    destruct (map_index allowedTypes (lower_ascii (Ext name))) eqn:Hidx;
      [|discriminate].
    intros _. exists stem, (Ext name). split; [exact E|].
    now apply allowed_extension_index.
  - intros (stem & e & -> & Hal). now apply Hending.
Qed.

Lemma ValidateMediaType_by_ending_witness :
  ValidateMediaType (fun s => s) "../../etc/passwd.exe.JpG" = nil
  /\ exists stem e, "holiday.MP4"%string = (stem ++ e)%string
                    /\ allowed_extension (lower_ascii e).
Proof.
  split.
  - apply (proj1 (ValidateMediaType_by_ending (fun s => s))
             "../../etc/passwd.exe" ".JpG").
    unfold allowed_extension. simpl. tauto.
  - apply (proj2 (ValidateMediaType_by_ending (fun s => s)) "holiday.MP4");
      reflexivity.
Defined.

Lemma ext_loop_no_dot before : forall after,
  forallb (fun c => negb (Ascii.eqb c ".")) before = true ->
  ext_loop before after = ""%string.
Proof.
  induction before as [|c more IH]; intros after H; [reflexivity|].
  simpl in H. apply andb_true_iff in H as [Hc H].
  apply negb_true_iff in Hc. cbn [ext_loop]. rewrite Hc.
  destruct (IsPathSeparator c); [reflexivity | now apply IH].
Qed.

(** X18: A name without any dot is refused, whatever its bytes, and so is the
    empty name. *)
Theorem ValidateMediaType_needs_extension mapLower name :
  forallb (fun c => negb (Ascii.eqb c ".")) (list_ascii_of_string name) = true ->
  ValidateMediaType mapLower name <> nil.
Proof.
  intros H. unfold ValidateMediaType.
  destruct (name =? "")%string; [discriminate|].
  unfold Ext. rewrite ext_loop_no_dot; [discriminate|].
  now rewrite forallb_reversed.
Qed.

Lemma ValidateMediaType_needs_extension_witness :
  exists msg, ValidateMediaType (fun s => s) "Makefile" = Errorf msg.
Proof.
  destruct (ValidateMediaType (fun s => s) "Makefile") as [msg|] eqn:E.
  - now exists msg.
  - exfalso.
    apply (ValidateMediaType_needs_extension (fun s => s) "Makefile");
      [reflexivity | exact E].
Defined.

End MediaExtras.

(** ** Requests, query parameters and configuration *)

Module ApiExtras.
Import GoString Regexp Validation ValidationMore Api Shapes.
Import PathFacts PathExtras ValidationFacts ValidationExtras.
Local Open Scope Z_scope.

Lemma Atoi_range s n :
  Strconv.Atoi s = Some n -> Strconv.minInt <= n <= Strconv.maxInt.
Proof.
  unfold Strconv.Atoi. destruct s as [|c rest]; [discriminate|].
  destruct (if (Ascii.eqb c "-" || Ascii.eqb c "+")%bool
            then rest else String c rest) as [|c' body];
    [discriminate|].
  destruct (Strconv.digits_value 0 (String c' body)) as [v|]; [|discriminate].
  destruct (Z.leb_spec Strconv.minInt (if Ascii.eqb c "-" then - v else v));
    [|discriminate].
  destruct (Z.leb_spec (if Ascii.eqb c "-" then - v else v) Strconv.maxInt);
    [|discriminate].
  simpl. intros E. injection E as <-. lia.
Qed.

Lemma Atoi_empty : Strconv.Atoi "" = None.
Proof. reflexivity. Qed.

(** X19: validateSendMessageRequest accepts a request exactly when the recipient
    is a bare number or a JID and the message is at most 4096 bytes long,
    the empty message included; a bad recipient is reported first, whatever
    the message. *)
Theorem validateSendMessageRequest_accepts req :
  (validateSendMessageRequest req = nil
   <-> (bare_number (Recipient req) \/ ValidateJID (Recipient req) = nil)
       /\ (String.length (Message req) <= 4096)%nat)
  /\ (forall err, ValidateRecipient (Recipient req) = Errorf err ->
                  validateSendMessageRequest req
                  = Errorf ("invalid recipient: " ++ err))
  /\ (ValidateRecipient (Recipient req) = nil -> Message req = ""%string ->
      validateSendMessageRequest req = nil).
Proof.
  unfold validateSendMessageRequest, ValidateMessageContent, wrap.
  split; [|split].
  - rewrite <- ValidatePhoneNumber_spec, <- ValidateRecipient_cases.
    destruct (ValidateRecipient (Recipient req)) as [e|].
    + split; [discriminate | intros [H _]; discriminate].
    + destruct (Nat.ltb_spec 4096 (String.length (Message req))).
      * split; [discriminate | intros [_ H']; lia].
      * split; [intros _; split; [reflexivity | lia] | reflexivity].
  - intros err ->. reflexivity.
  - intros -> ->. reflexivity.
Qed.

Lemma validateSendMessageRequest_accepts_witness :
  validateSendMessageRequest
    {| Recipient := "not a number"; Message := "hello" |}
  = Errorf "invalid recipient: invalid recipient format: not a number"
  /\ validateSendMessageRequest
       {| Recipient := "4915123456789"; Message := "" |}
     = nil.
Proof.
  split.
  - apply (proj1 (proj2 (validateSendMessageRequest_accepts
                           {| Recipient := "not a number";
                              Message := "hello" |}))).
    reflexivity.
  - apply (proj2 (proj2 (validateSendMessageRequest_accepts
                           {| Recipient := "4915123456789";
                              Message := "" |}))); reflexivity.
Defined.

(** X20: validateSendFileRequest does not look at the kind of file: with a valid
    recipient, every absolute path that holds neither ".." nor a null byte
    is accepted, whatever its extension and whatever the working
    directory; a bad recipient is reported first, whatever the path. *)
Theorem validateSendFileRequest_ignores_media_type getwd req :
  (ValidateRecipient (FileRecipient req) = nil ->
   Filepath.IsAbs (FilePath req) = true ->
   Contains (FilePath req) ".." = false ->
   Contains (FilePath req) NUL = false ->
   validateSendFileRequest getwd req = nil)
  /\ (forall err, ValidateRecipient (FileRecipient req) = Errorf err ->
                  validateSendFileRequest getwd req
                  = Errorf ("invalid recipient: " ++ err)).
Proof.
  unfold validateSendFileRequest, wrap. split.
  - intros -> Habs Hd Hn.
    destruct (Clean_stays_clean _ Habs Hd Hn) as [Hd1 Hn1].
    assert (Habs1 := Clean_keeps_root _ Habs).
    destruct (Clean_stays_clean _ Habs1 Hd1 Hn1) as [_ Hn2].
    replace (ValidateFilePath getwd (FilePath req)) with nil; [reflexivity|].
    symmetry. apply ValidateFilePath_passes. split; [|split].
    + intros E. rewrite E in Habs. discriminate.
    + exact Hd1.
    + exists (Filepath.Clean (Filepath.Clean (FilePath req))).
      split; [|exact Hn2]. unfold Filepath.Abs. now rewrite Habs1.
  - intros err ->. reflexivity.
Qed.

Lemma validateSendFileRequest_ignores_media_type_witness :
  validateSendFileRequest (Ok "/srv")
    {| FileRecipient := "4915123456789"; FilePath := "/tmp/setup.exe" |}
  = nil.
Proof.
  apply (proj1 (validateSendFileRequest_ignores_media_type (Ok "/srv")
                  {| FileRecipient := "4915123456789";
                     FilePath := "/tmp/setup.exe" |})); reflexivity.
Defined.

Lemma parsed_window_within_bounds query limit offset :
  parseQueryParams query = (limit, offset, nil) ->
  1 <= limit <= 100 /\ 0 <= offset <= Strconv.maxInt.
Proof.
  unfold parseQueryParams.
  destruct (Get query "limit" =? "")%string.
  - destruct (Get query "offset" =? "")%string.
    + intros E. injection E as <- <-. unfold Strconv.maxInt. lia.
    + destruct (Strconv.Atoi (Get query "offset")) as [o|] eqn:Eo;
        [|discriminate].
      destruct (Z.ltb_spec o 0); [discriminate|].
      intros E. injection E as <- <-. apply Atoi_range in Eo. lia.
  - destruct (Strconv.Atoi (Get query "limit")) as [l|]; [|discriminate].
    destruct (Z.ltb_spec l 1); [discriminate|].
    destruct (Z.ltb_spec 100 l); [discriminate|]. cbn [orb].
    destruct (Get query "offset" =? "")%string.
    + intros E. injection E as <- <-. unfold Strconv.maxInt. lia.
    + destruct (Strconv.Atoi (Get query "offset")) as [o|] eqn:Eo;
        [|discriminate].
      destruct (Z.ltb_spec o 0); [discriminate|].
      intros E. injection E as <- <-. apply Atoi_range in Eo. lia.
Qed.

(** X21: parseQueryParams hands out either a window within bounds or nothing:
    on success 1 <= limit <= 100 and 0 <= offset, with limit 20 and offset
    0 for a parameter that is absent or empty; on failure limit and offset
    are both 0 and the error names the limit if the limit is bad, whatever
    the offset, and the offset otherwise. *)
Theorem parseQueryParams_window query :
  (forall limit offset,
      parseQueryParams query = (limit, offset, nil) ->
      1 <= limit <= 100 /\ 0 <= offset <= Strconv.maxInt)
  /\ (forall limit offset err,
        parseQueryParams query = (limit, offset, Errorf err) ->
        limit = 0 /\ offset = 0
        /\ (err = "invalid limit parameter"%string
            \/ err = "invalid offset parameter"%string))
  /\ (Get query "limit" = ""%string -> Get query "offset" = ""%string ->
      parseQueryParams query = (20, 0, nil))
  /\ (forall l, Strconv.Atoi (Get query "limit") = Some l ->
                l < 1 \/ 100 < l ->
                parseQueryParams query
                = (0, 0, Errorf "invalid limit parameter")).
Proof.
  unfold parseQueryParams.
  split; [|split; [|split]].
  - apply parsed_window_within_bounds.
  - intros limit offset err.
    destruct (if (Get query "limit" =? "")%string then Some 20
              else match Strconv.Atoi (Get query "limit") with
                   | Some l => if ((l <? 1) || (100 <? l))%bool
                               then None else Some l
                   | None => None
                   end) as [l|].
    + destruct (if (Get query "offset" =? "")%string then Some 0
                else match Strconv.Atoi (Get query "offset") with
                     | Some o => if o <? 0 then None else Some o
                     | None => None
                     end) as [o|].
      * discriminate.
      * intros E. injection E as <- <- <-. auto.
    + intros E. injection E as <- <- <-. auto.
  - intros -> ->. reflexivity.
  - intros l El Hl. rewrite El.
    destruct (String.eqb_spec (Get query "limit") "") as [E|_].
    + rewrite E in El. discriminate.
    + replace ((l <? 1) || (100 <? l))%bool with true; [reflexivity|].
      symmetry. apply orb_true_iff.
      destruct Hl; [left; now apply Z.ltb_lt | right; now apply Z.ltb_lt].
Qed.

Lemma parseQueryParams_window_witness :
  1 <= 7 <= 100 /\ 0 <= 40 <= Strconv.maxInt.
Proof.
  apply (proj1 (parseQueryParams_window
                  [("offset", ["40"]); ("limit", ["+7"; "900"])]%string)).
  reflexivity.
Defined.

(** X22: A page asked for with parsed query parameters never holds more than
    100 rows, of messages or of chats, and never more than the limit
    parsed. *)
Theorem parsed_window_bounds_page query limit offset s chatJID :
  parseQueryParams query = (limit, offset, nil) ->
  (List.length (fst (Database.GetMessages s chatJID limit offset))
   <= Z.to_nat limit <= 100)%nat
  /\ (List.length (fst (Database.GetChats s limit offset))
      <= Z.to_nat limit <= 100)%nat.
Proof.
  intros E.
  destruct (parsed_window_within_bounds query limit offset E) as [Hl _].
  unfold Database.GetMessages, Database.GetChats. simpl fst.
  repeat split; try lia; apply StoreExtras.page_length; lia.
Qed.

Lemma parsed_window_bounds_page_witness :
  (List.length
     (fst (Database.GetMessages Examples.store3 "1@s.whatsapp.net" 2 1))
   <= Z.to_nat 2 <= 100)%nat.
Proof.
  apply (parsed_window_bounds_page
           [("limit", ["2"]); ("offset", ["1"])]%string 2 1
           Examples.store3 "1@s.whatsapp.net").
  reflexivity.
Defined.

End ApiExtras.

Module ConfigExtras.
Import Config.
Local Open Scope Z_scope.

Lemma getEnv_not_empty env key defaultValue :
  defaultValue <> ""%string -> getEnv env key defaultValue <> ""%string.
Proof.
  intros Hd. unfold getEnv.
  destruct (String.eqb_spec (env key) "") as [E|N]; simpl; assumption.
Qed.

Lemma getEnvAsInt_parse env key defaultValue :
  getEnvAsInt env key defaultValue
  = match Strconv.Atoi (env key) with
    | Some n => n
    | None => defaultValue
    end.
Proof.
  unfold getEnvAsInt.
  destruct (String.eqb_spec (env key) "") as [->|_]; reflexivity.
Qed.

(** X23: LoadConfig always yields a usable configuration: the database path,
    the store directory and the log level are never empty (a variable set
    to the empty string counts as not set), and the port fits an int; with
    no variable set it is the default configuration.  The port is not
    checked any further: it is whatever integer WHATSAPP_API_PORT spells,
    negative or beyond 65535 included, and 8080 when the variable spells
    none. *)
Theorem LoadConfig_total env :
  (DatabasePath (LoadConfig env) <> ""%string
   /\ StoreDir (LoadConfig env) <> ""%string
   /\ LogLevel (LoadConfig env) <> ""%string
   /\ Strconv.minInt <= APIPort (LoadConfig env) <= Strconv.maxInt)
  /\ ((forall key, env key = ""%string) ->
      LoadConfig env
      = {| DatabasePath := "store/messages.db"; APIPort := 8080;
           StoreDir := "store"; LogLevel := "info" |})
  /\ (forall n, Strconv.Atoi (env "WHATSAPP_API_PORT"%string) = Some n ->
                APIPort (LoadConfig env) = n)
  /\ (Strconv.Atoi (env "WHATSAPP_API_PORT"%string) = None ->
      APIPort (LoadConfig env) = 8080).
Proof.
  split; [|split; [|split]].
  - repeat split; try (apply getEnv_not_empty; discriminate);
      simpl; rewrite getEnvAsInt_parse;
      destruct (Strconv.Atoi (env "WHATSAPP_API_PORT"%string)) as [n|] eqn:E;
      try (apply ApiExtras.Atoi_range in E; lia);
      unfold Strconv.minInt, Strconv.maxInt; lia.
  - intros Hunset. unfold LoadConfig, getEnv, getEnvAsInt.
    now rewrite !Hunset.
  - intros n E. simpl. now rewrite getEnvAsInt_parse, E.
  - intros E. simpl. now rewrite getEnvAsInt_parse, E.
Qed.

Lemma LoadConfig_total_witness :
  APIPort (LoadConfig (env_of [("WHATSAPP_API_PORT", "-1");
                               ("WHATSAPP_STORE_DIR", "")]%string))
  = -1
  /\ LoadConfig (env_of [])
     = {| DatabasePath := "store/messages.db"; APIPort := 8080;
          StoreDir := "store"; LogLevel := "info" |}.
Proof.
  split.
  - apply (proj1 (proj2 (proj2 (LoadConfig_total
             (env_of [("WHATSAPP_API_PORT", "-1");
                      ("WHATSAPP_STORE_DIR", "")]%string))))).
    reflexivity.
  - apply (proj1 (proj2 (LoadConfig_total (env_of [])))). reflexivity.
Defined.

End ConfigExtras.
